(** * thread_system: the log-level migration tool

    A shallow embedding of [tools/migrate_log_levels.py] and the proofs of
    its specified properties.

    Text is a list of 8-bit characters read as the code points U+0000 to
    U+00FF of a Python [str]; the character classes [\w] and [\s] are the
    ones Python's [re] uses for [str] patterns on that range.  The regular
    expressions of the source are written with backtracking combinators in
    continuation-passing style, one combinator per regex construct, so that
    each pattern below can be read against the pattern string it embeds. *)

From Stdlib Require Import List Ascii String ZArith Lia Bool NArith.
From Stdlib Require Import DecimalString Sorted Permutation.
From stdpp Require Import base list gmap strings.
Import ListNotations.

Local Open Scope bool_scope.
Local Open Scope list_scope.

(** ** Text *)

Definition str := list ascii.

(** A Python string literal. *)
Definition text (s : string) : str := list_ascii_of_string s.

Definition newline : ascii := ascii_of_nat 10.

Definition in_range (lo hi n : N) : bool := (lo <=? n)%N && (n <=? hi)%N.

(** [\w] of a [str] pattern: alphanumeric code points and the underscore. *)
Definition is_word (c : ascii) : bool :=
  let n := N_of_ascii c in
  in_range 48 57 n || in_range 65 90 n || (n =? 95)%N || in_range 97 122 n
  || (n =? 170)%N || in_range 178 179 n || (n =? 181)%N || in_range 185 186 n
  || in_range 188 190 n || in_range 192 214 n || in_range 216 246 n
  || in_range 248 255 n.

(** [\s] of a [str] pattern, which is also what [str.strip()] removes. *)
Definition is_space (c : ascii) : bool :=
  let n := N_of_ascii c in
  in_range 9 13 n || in_range 28 32 n || (n =? 133)%N || (n =? 160)%N.

(** [s.startswith(w)], returning what follows [w]. *)
Fixpoint strip_prefix (w s : str) : option str :=
  match w, s with
  | [], _ => Some s
  | a :: w', c :: s' => if Ascii.eqb a c then strip_prefix w' s' else None
  | _ :: _, [] => None
  end.

Definition starts_with (w s : str) : bool :=
  match strip_prefix w s with Some _ => true | None => false end.

Fixpoint lstrip (s : str) : str :=
  match s with
  | c :: s' => if is_space c then lstrip s' else s
  | [] => []
  end.

(** [s.strip()] *)
Definition strip (s : str) : str := rev (lstrip (rev (lstrip s))).

(** [s.split('\n')]: never empty, one more piece than there are newlines. *)
Fixpoint split_nl (s : str) : list str :=
  match s with
  | [] => [[]]
  | c :: s' =>
      if Ascii.eqb c newline then [] :: split_nl s'
      else match split_nl s' with
           | l :: ls => (c :: l) :: ls
           | [] => [[c]]
           end
  end.

(** ['\n'.join(ls)] *)
Fixpoint join_nl (ls : list str) : str :=
  match ls with
  | [] => []
  | [l] => l
  | l :: ls' => l ++ newline :: join_nl ls'
  end.

(** [lines.insert(i, x)] for [i >= 0]: past the end it appends. *)
Definition list_insert_at {A} (i : nat) (x : A) (l : list A) : list A :=
  take i l ++ x :: drop i l.

(** ** Regular expressions

    A cursor is a position in the subject: the characters behind it, nearest
    first, and the characters ahead.  A pattern is a function from the
    continuation that matches the rest of the pattern to a matcher; failure
    of the continuation makes the construct try its next choice, as the
    backtracking matcher of [re] does. *)

Record cursor := Cursor { behind : str; ahead : str }.

Definition hd_word (s : str) : bool :=
  match s with c :: _ => is_word c | [] => false end.

Section Regex.
Context {A : Type}.

Definition matcher := cursor -> option A.

(** literal text *)
Definition lit (w : str) (k : matcher) : matcher := fun c =>
  match strip_prefix w (ahead c) with
  | Some r => k (Cursor (rev w ++ behind c) r)
  | None => None
  end.

(** one character of a class, [[...]] *)
Definition cls (p : ascii -> bool) (k : matcher) : matcher := fun c =>
  match ahead c with
  | a :: r => if p a then k (Cursor (a :: behind c) r) else None
  | [] => None
  end.

(** greedy repetition of a class, [p*] *)
Fixpoint star_from (p : ascii -> bool) (k : matcher) (b s : str) : option A :=
  match s with
  | a :: r =>
      if p a then
        match star_from p k (a :: b) r with
        | Some x => Some x
        | None => k (Cursor b s)
        end
      else k (Cursor b s)
  | [] => k (Cursor b [])
  end.

Definition star (p : ascii -> bool) (k : matcher) : matcher := fun c =>
  star_from p k (behind c) (ahead c).

(** [p+] *)
Definition plus (p : ascii -> bool) (k : matcher) : matcher :=
  cls p (star p k).

(** negative lookbehind for literal text, [(?<!w)] *)
Definition not_behind (w : str) (k : matcher) : matcher := fun c =>
  if starts_with (rev w) (behind c) then None else k c.

(** [\b] *)
Definition word_boundary (k : matcher) : matcher := fun c =>
  if xorb (hd_word (behind c)) (hd_word (ahead c)) then k c else None.

(** a capturing group around an alternation of literals, [(w1|w2|...)];
    the continuation receives the captured text *)
Fixpoint capture_alt (ws : list str) (k : str -> matcher) : matcher := fun c =>
  match ws with
  | [] => None
  | w :: ws' =>
      match lit w (k w) c with
      | Some x => Some x
      | None => capture_alt ws' k c
      end
  end.

(** [re.search]: the first position, from the left, where the pattern matches *)
Fixpoint search_from (m : matcher) (b s : str) : option A :=
  match m (Cursor b s) with
  | Some x => Some x
  | None =>
      match s with
      | a :: r => search_from m (a :: b) r
      | [] => None
      end
  end.
End Regex.

(** The end of a pattern whose match object is only tested for truth. *)
Definition accept : @matcher unit := fun _ => Some tt.

Definition re_search (p : @matcher unit -> @matcher unit) (s : str) : bool :=
  match search_from (p accept) [] s with Some _ => true | None => false end.

Definition re_match (p : @matcher unit -> @matcher unit) (s : str) : bool :=
  match p accept (Cursor [] s) with Some _ => true | None => false end.

(** [w in s] *)
Definition contains (w s : str) : bool := re_search (lit w) s.

Definition any_but_newline (c : ascii) : bool := negb (Ascii.eqb c newline).

Definition one_of (cs : str) (c : ascii) : bool := existsb (Ascii.eqb c) cs.

(** ** Constants of the tool *)

Definition SUPPORTED_EXTENSIONS : list str :=
  [text ".cpp"; text ".hpp"; text ".h"; text ".cc"; text ".cxx"; text ".hxx"].

(** Each skip pattern with its source text, which the skip reason quotes:
    [logger_interface\.h] and [thread_logger\.h]. *)
Definition SKIP_PATTERNS : list (str * (@matcher unit -> @matcher unit)) :=
  [ (text "logger_interface\.h", lit (text "logger_interface.h"));
    (text "thread_logger\.h", lit (text "thread_logger.h")) ].

Definition LEVEL_MAPPINGS : list (str * str) :=
  [ (text "trace", text "trace");
    (text "debug", text "debug");
    (text "info", text "info");
    (text "warning", text "warn");
    (text "error", text "error");
    (text "critical", text "critical") ].

(** [d.get(k, default)] *)
Fixpoint dict_get (d : list (str * str)) (k default : str) : str :=
  match d with
  | [] => default
  | (k', v) :: d' => if bool_decide (k' = k) then v else dict_get d' k default
  end.

(** ** Skip filter *)

(** [os.path.basename]: what follows the last slash. *)
Fixpoint basename (p : str) : str :=
  match p with
  | [] => []
  | _ :: p' => if contains (text "/") p then basename p' else p
  end.

Fixpoint first_skip_pattern
    (ps : list (str * (@matcher unit -> @matcher unit))) (filename : str)
    : bool * str :=
  match ps with
  | [] => (false, [])
  | (src, p) :: ps' =>
      if re_search p filename
      then (true, text "Matches skip pattern: " ++ src)
      else first_skip_pattern ps' filename
  end.

Definition should_skip_file (filepath : str) : bool * str :=
  first_skip_pattern SKIP_PATTERNS (basename filepath).

(** ** Pattern rewriter *)

Definition levels : list str := map fst LEVEL_MAPPINGS.

(** [(?<!log_level_v2::)(?<!_v2::)\blog_level::(trace|debug|...|critical)\b];
    a match yields group 1 and the cursor at its end. *)
Definition create_migration_pattern : @matcher (str * cursor) :=
  not_behind (text "log_level_v2::")
    (not_behind (text "_v2::")
      (word_boundary
        (lit (text "log_level::")
          (capture_alt levels (fun g =>
            word_boundary (fun c => Some (g, c))))))).

Definition replace_match (old_level : str) : str :=
  text "log_level_v2::" ++ dict_get LEVEL_MAPPINGS old_level old_level.

(** [pattern.sub(replace_match, line)], scanning from the left: [b] holds the
    characters of the line already passed and [skip] counts the characters
    of the current match still to pass.  The pattern cannot match the empty
    string, so nothing is tried at the end of the line. *)
Fixpoint sub_scan (b : str) (skip : nat) (s : str) : str :=
  match s with
  | [] => []
  | a :: r =>
      match skip with
      | S n => sub_scan (a :: b) n r
      | O =>
          match create_migration_pattern (Cursor b s) with
          | Some (g, c') =>
              replace_match g
                ++ sub_scan (a :: b) (length r - length (ahead c')) r
          | None => a :: sub_scan (a :: b) 0 r
          end
      end
  end.

Definition pattern_sub (line : str) : str := sub_scan [] 0 line.

Definition migrate_line (line : str) : str * bool :=
  let new_line := pattern_sub line in
  (new_line, bool_decide (new_line <> line)).

(** ** Include injector *)

Definition dquote : ascii := ascii_of_nat 34.

(** [#include\s*[<Q].*log_level\.h[>Q]], with [Q] for the double quote *)
Definition log_level_include_re (k : @matcher unit) : @matcher unit :=
  lit (text "#include")
    (star is_space
      (cls (one_of ["<"%char; dquote])
        (star any_but_newline
          (lit (text "log_level.h")
            (cls (one_of [">"%char; dquote]) k))))).

(** [#include\s*[<Q]kcenon/thread/] *)
Definition thread_include_re (k : @matcher unit) : @matcher unit :=
  lit (text "#include")
    (star is_space
      (cls (one_of ["<"%char; dquote])
        (lit (text "kcenon/thread/") k))).

(** [#ifndef\s+\w+_H] *)
Definition header_guard_re (k : @matcher unit) : @matcher unit :=
  lit (text "#ifndef") (plus is_space (plus is_word (lit (text "_H") k))).

Definition needs_include_update (content : str) : bool :=
  if contains (text "log_level_v2::") content then
    if re_search log_level_include_re content then false else true
  else false.

Definition include_line : str := text "#include <kcenon/thread/core/log_level.h>".

(** The first loop of [add_log_level_include], from line [i] on. *)
Fixpoint scan_includes (i : nat) (insert_index : Z) (lines : list str) : Z :=
  match lines with
  | [] => insert_index
  | line :: rest =>
      let insert_index :=
        if re_search thread_include_re line then (Z.of_nat i + 1)%Z
        else if starts_with (text "#include") line && (insert_index =? -1)%Z
             then (Z.of_nat i + 1)%Z
             else insert_index in
      scan_includes (S i) insert_index rest
  end.

(** The second loop, which stops at the first header guard. *)
Fixpoint scan_guards (i : nat) (lines : list str) : Z :=
  match lines with
  | [] => (-1)%Z
  | line :: rest =>
      if starts_with (text "#pragma once") line || re_match header_guard_re line
      then (Z.of_nat i + 1)%Z
      else scan_guards (S i) rest
  end.

Definition find_insert_index (lines : list str) : Z :=
  let insert_index := scan_includes 0 (-1) lines in
  if (insert_index =? -1)%Z then
    let insert_index := scan_guards 0 lines in
    if (insert_index =? -1)%Z then 0%Z else insert_index
  else insert_index.

Definition add_log_level_include (content : str) : str :=
  let lines := split_nl content in
  let insert_index := find_insert_index lines in
  let lines :=
    if contains include_line content then lines
    else list_insert_at (Z.to_nat insert_index) include_line lines in
  join_nl lines.

(** ** Migration of one file *)

Definition change : Type := nat * str * str.

Record MigrationResult := {
  path : str;
  original_content : str;
  new_content : str;
  changes : list change;
  skipped : bool;
  skip_reason : str;
  error : option str;
}.

(** The line loop of [migrate_file], from line [i] on: the new lines and the
    changes, in file order. *)
Fixpoint migrate_lines (i : nat) (lines : list str) : list str * list change :=
  match lines with
  | [] => ([], [])
  | line :: rest =>
      let '(new_line, changed) := migrate_line line in
      let '(new_lines, chs) := migrate_lines (S i) rest in
      (new_line :: new_lines,
       if changed then (S i, strip line, strip new_line) :: chs else chs)
  end.

Definition is_empty {A} (l : list A) : bool :=
  match l with [] => true | _ => false end.

(** [migrate_file] from the point where the content has been read. *)
Definition migrate_text (original : str) : str * list change :=
  let lines := split_nl original in
  let '(new_lines, chs) := migrate_lines 0 lines in
  let new_content := join_nl new_lines in
  let new_content :=
    if negb (is_empty chs) && needs_include_update new_content
    then add_log_level_include new_content
    else new_content in
  (new_content, chs).

(** ** The file system and the output streams

    A path holds either a file that [open(..., 'r', encoding='utf-8').read()]
    returns the text of, or something on which it raises (a directory, no
    permission, bytes that do not decode) with the text of the exception.
    Every effect of a run is appended to a trace.  Writing and copying are
    taken to succeed: the source has no handler for their failure. *)

Inductive entry :=
  | Readable (content : str)
  | Unreadable (exc : str).

Inductive event :=
  | Stdout (s : str)
  | Stderr (s : str)
  | Opened (p : str)
  | Wrote (p : str) (content : str)
  | Copied (src dst : str).

Record world := World { fs : gmap str entry; trace : list event }.

Definition emit (e : event) (w : world) : world :=
  World (fs w) (trace w ++ [e]).

(** [print(s)] and [print(s, file=sys.stderr)] *)
Definition print (s : str) (w : world) : world := emit (Stdout (s ++ [newline])) w.
Definition print_err (s : str) (w : world) : world := emit (Stderr (s ++ [newline])) w.

(** [open(p, 'w', encoding='utf-8').write(content)] *)
Definition write_file (p content : str) (w : world) : world :=
  World (<[p := Readable content]> (fs w)) (trace w ++ [Wrote p content]).

(** [shutil.copy2(src, dst)] *)
Definition copy_file (src dst : str) (w : world) : world :=
  World (match fs w !! src with
         | Some e => <[dst := e]> (fs w)
         | None => fs w
         end)
        (trace w ++ [Copied src dst]).

(** What the tool takes from [os.path], [pathlib] and [difflib]. *)
Record Platform := {
  path_exists : gmap str entry -> str -> bool;
  path_is_file : gmap str entry -> str -> bool;
  path_suffix : str -> str;
  path_str : str -> str;
  rglob : gmap str entry -> str -> str -> list str;
  missing_error : str -> str;
  splitlines_keepends : str -> list str;
  unified_diff : list str -> list str -> str -> str -> list str;
}.

(** [str(n)] for a count *)
Definition decimal (n : nat) : str := text (NilEmpty.string_of_uint (Nat.to_uint n)).

Fixpoint str_leb (a b : str) : bool :=
  match a, b with
  | [], _ => true
  | _ :: _, [] => false
  | x :: a', y :: b' =>
      if (N_of_ascii x <? N_of_ascii y)%N then true
      else if Ascii.eqb x y then str_leb a' b' else false
  end.

Fixpoint insert_sorted (x : str) (l : list str) : list str :=
  match l with
  | [] => [x]
  | y :: l' => if str_leb x y then x :: l else y :: insert_sorted x l'
  end.

(** [sorted(files)] *)
Definition sorted (l : list str) : list str := fold_right insert_sorted [] l.

Record Args := {
  args_path : str;
  args_dry_run : bool;
  args_diff : bool;
  args_verbose : bool;
  args_backup : bool;
}.

Record counters := Counters {
  total_changes : nat;
  files_changed : nat;
  files_skipped : nat;
}.

Section Runner.
Variable P : Platform.

Definition open_read (m : gmap str entry) (p : str) : str + str :=
  match m !! p with
  | Some (Readable content) => inl content
  | Some (Unreadable exc) => inr exc
  | None => inr (missing_error P p)
  end.

Definition migrate_file (filepath : str) (dry_run : bool) (w : world)
    : MigrationResult * world :=
  let '(should_skip, reason) := should_skip_file filepath in
  if should_skip then
    ({| path := filepath; original_content := []; new_content := [];
        changes := []; skipped := true; skip_reason := reason;
        error := None |}, w)
  else
    let w := emit (Opened filepath) w in
    match open_read (fs w) filepath with
    | inr e =>
        ({| path := filepath; original_content := []; new_content := [];
            changes := []; skipped := false; skip_reason := [];
            error := Some (text "Failed to read file: " ++ e) |}, w)
    | inl content =>
        let '(new, chs) := migrate_text content in
        ({| path := filepath; original_content := content; new_content := new;
            changes := chs; skipped := false; skip_reason := [];
            error := None |}, w)
    end.

Definition escape : ascii := ascii_of_nat 27.

Definition print_diff_line (w : world) (line : str) : world :=
  if starts_with (text "+") line && negb (starts_with (text "+++") line)
  then emit (Stdout (escape :: text "[32m" ++ line ++ escape :: text "[0m")) w
  else if starts_with (text "-") line && negb (starts_with (text "---") line)
  then emit (Stdout (escape :: text "[31m" ++ line ++ escape :: text "[0m")) w
  else emit (Stdout line) w.

Definition print_diff (result : MigrationResult) (w : world) : world :=
  if is_empty (changes result)
     && bool_decide (original_content result = new_content result)
  then w
  else
    fold_left print_diff_line
      (unified_diff P
         (splitlines_keepends P (original_content result))
         (splitlines_keepends P (new_content result))
         (text "a/" ++ path result) (text "b/" ++ path result))
      w.

Definition find_files (m : gmap str entry) (p : str) : list str :=
  if path_is_file P m p then
    if bool_decide (path_suffix P p ∈ SUPPORTED_EXTENSIONS)
    then [path_str P p] else []
  else
    sorted (concat (map (fun ext => rglob P m p (text "*" ++ ext))
                        SUPPORTED_EXTENSIONS)).

Definition print_change (w : world) (ch : change) : world :=
  let '(line_num, old, new) := ch in
  print (text "    + " ++ new)
    (print (text "    - " ++ old)
      (print (text "  Line " ++ decimal line_num ++ text ":") w)).

(** One turn of the loop of [main] over the discovered files. *)
Definition process_file (args : Args) (st : counters * world) (filepath : str)
    : counters * world :=
  let '(n, w) := st in
  let '(result, w) := migrate_file filepath (args_dry_run args) w in
  match error result with
  | Some e =>
      (n, print_err (text "Error processing " ++ filepath ++ text ": " ++ e) w)
  | None =>
      if skipped result then
        (Counters (total_changes n) (files_changed n) (S (files_skipped n)),
         if args_verbose args
         then print (text "Skipped: " ++ filepath ++ text " ("
                       ++ skip_reason result ++ text ")") w
         else w)
      else if is_empty (changes result) then
        (n, if args_verbose args
            then print (text "No changes: " ++ filepath) w else w)
      else
        let n := Counters (total_changes n + length (changes result))
                          (S (files_changed n)) (files_skipped n) in
        let w :=
          if args_diff args then print [] (print_diff result w)
          else if args_verbose args || args_dry_run args then
            fold_left print_change (changes result)
              (print ((if args_dry_run args then text "Would modify"
                       else text "Modified") ++ text ": " ++ filepath) w)
          else w in
        let w :=
          if args_dry_run args then w
          else
            let w := if args_backup args
                     then copy_file filepath (filepath ++ text ".bak") w
                     else w in
            write_file filepath (new_content result) w in
        (n, w)
  end.

Definition process_files (args : Args) (files : list str) (st : counters * world)
    : counters * world :=
  fold_left (process_file args) files st.

Definition print_summary (args : Args) (files : list str) (st : counters * world)
    : world :=
  let '(n, w) := st in
  let w := print [] w in
  let w := print (repeat "="%char 50) w in
  let w := print (text "Migration Summary") w in
  let w := print (repeat "="%char 50) w in
  let w := print (text "Files processed: " ++ decimal (length files)) w in
  let w := print (text "Files changed:   " ++ decimal (files_changed n)) w in
  let w := print (text "Files skipped:   " ++ decimal (files_skipped n)) w in
  let w := print (text "Total changes:   " ++ decimal (total_changes n)) w in
  if args_dry_run args && negb (files_changed n =? 0) then
    print (text "Run without --dry-run to apply changes.")
      (print (text "This was a dry run. No files were modified.")
        (print [] w))
  else w.

(** [main] after argument parsing: the final world and the exit code. *)
Definition main (args : Args) (w : world) : world * Z :=
  if negb (path_exists P (fs w) (args_path args)) then
    (print_err (text "Error: Path does not exist: " ++ args_path args) w, 1%Z)
  else
    let files := find_files (fs w) (args_path args) in
    if is_empty files then
      (print (text "No supported files found in: " ++ args_path args) w, 0%Z)
    else
      let w := if args_verbose args
               then print (text "Found " ++ decimal (length files)
                             ++ text " file(s) to process") w
               else w in
      let st := process_files args files (Counters 0 0 0, w) in
      (print_summary args files st, 0%Z).
End Runner.

(** ** Auxiliary definitions for the statements and proofs *)

Definition legacy_qualifier : str := text "log_level::".

(** What the pattern asks of the text behind a match. *)
Definition ctx_ok (b : str) : bool :=
  negb (starts_with (rev (text "log_level_v2::")) b)
  && negb (starts_with (rev (text "_v2::")) b)
  && negb (hd_word b).

Definition version_marker : str := rev (text "_v2::").

Definition look (b : str) : bool * bool := (starts_with version_marker b, hd_word b).

(** Two texts behind the cursor that the pattern cannot tell apart, now or
    after any further characters. *)
Definition ctx_equiv (b b' : str) : Prop := forall p, look (p ++ b) = look (p ++ b').

Definition new_qualifier : str := text "log_level_v2::".

Definition nl_free (l : str) : Prop := forallb any_but_newline l = true.

Definition rewritten_lines (content : str) : list str :=
  map pattern_sub (split_nl content).

(** [s.endswith(w)] *)
Definition ends_with (w s : str) : bool := starts_with (rev w) (rev s).

(** In a pattern word, the letter l never follows a non-word character. *)
Fixpoint safe_pairs (w : str) : bool :=
  match w with
  | c :: (d :: _) as w' => (is_word c || negb (Ascii.eqb d "l")) && safe_pairs w'
  | _ => true
  end.

Definition warning_scenario : str := text "auto lvl = log_level::warning;".


Definition two_includes : str :=
  join_nl [text "#include <string>"; text "#include <vector>";
           text "auto lvl = log_level::info;"].

Definition is_write (e : event) : bool :=
  match e with Wrote _ _ | Copied _ _ => true | _ => false end.


(** Nothing was written between [w] and [w']. *)
Definition quiet (w w' : world) : Prop :=
  fs w' = fs w /\ List.filter is_write (trace w') = List.filter is_write (trace w).


Definition logger_interface_h : str := text "logger_interface.h".

Definition thread_logger_h : str := text "thread_logger.h".

(** A platform to run the scenarios on, with one flat directory [src]: every
    path of the map is found under any root, a path is a file when the map
    holds it, and diffs are not rendered. *)

Fixpoint from_last_dot (name : str) : str :=
  match name with
  | [] => []
  | c :: name' =>
      if contains (text ".") name' then from_last_dot name'
      else if Ascii.eqb c "." then name else []
  end.

(** [Path(p).suffix]: the last dot of the name and what follows it, unless
    that dot starts or ends the name. *)
Definition suffix_of (p : str) : str :=
  let name := basename p in
  let s := from_last_dot name in
  if bool_decide (s = name) || (length s <=? 1) then [] else s.

Definition flat_platform : Platform := {|
  path_exists := fun m p => bool_decide (p = text "src") || bool_decide (is_Some (m !! p));
  path_is_file := fun m p => bool_decide (is_Some (m !! p));
  path_suffix := suffix_of;
  path_str := fun p => p;
  rglob := fun m _ pat => List.filter (ends_with (drop 1 pat)) (map fst (map_to_list m));
  missing_error := fun p => text "[Errno 2] No such file or directory: '" ++ p ++ text "'";
  splitlines_keepends := fun s => [s];
  unified_diff := fun _ _ _ _ => [];
|}.

Definition demo_fs : gmap str entry :=
  list_to_map
    [ (text "src/a.cpp", Readable (text "auto lvl = log_level::warning;"));
      (text "src/b.h", Readable (text "set(log_level::info); set(log_level::error);"));
      (text "src/c.cpp", Readable (text "int x = 0;"));
      (text "src/logger_interface.h", Readable (text "virtual void f(log_level::error);"));
      (text "src/locked.cpp",
       Unreadable (text "[Errno 13] Permission denied: 'src/locked.cpp'")) ].

Definition demo_world : world := World demo_fs [].

Definition demo_args (dry : bool) : Args :=
  {| args_path := text "src"; args_dry_run := dry; args_diff := false;
     args_verbose := false; args_backup := true |}.

Definition missing_args : Args :=
  {| args_path := text "nowhere"; args_dry_run := false; args_diff := false;
     args_verbose := false; args_backup := false |}.

Definition diff_line_text (line : str) : str :=
  if starts_with (text "+") line && negb (starts_with (text "+++") line)
  then escape :: text "[32m" ++ line ++ escape :: text "[0m"
  else if starts_with (text "-") line && negb (starts_with (text "---") line)
  then escape :: text "[31m" ++ line ++ escape :: text "[0m"
  else line.

Definition is_output (e : event) : Prop :=
  match e with Stdout _ | Stderr _ => True | _ => False end.

(** What a run may do with the discovered [files]. *)
Definition run_event_ok (args : Args) (files : list str) (e : event) : Prop :=
  match e with
  | Stdout _ | Stderr _ => True
  | Opened p => In p files /\ fst (should_skip_file p) = false
  | Wrote p _ =>
      In p files /\ fst (should_skip_file p) = false /\ args_dry_run args = false
  | Copied src dst =>
      In src files /\ fst (should_skip_file src) = false /\ dst = src ++ text ".bak"
      /\ args_backup args = true /\ args_dry_run args = false
  end.

(** The trace of [w'] is the trace of [w] and then events that satisfy [Q]. *)
Definition extends_with (Q : event -> Prop) (w w' : world) : Prop :=
  exists new, trace w' = trace w ++ new /\ Forall Q new.

Definition readme_world : world :=
  World (<[text "README.md" := Readable (text "uses log_level::info")]> demo_fs) [].

Definition readme_args : Args :=
  {| args_path := text "README.md"; args_dry_run := false; args_diff := false;
     args_verbose := true; args_backup := true |}.

(** * Properties *)

(** ** Text lemmas *)

Lemma strip_prefix_Some w s r : strip_prefix w s = Some r <-> s = w ++ r.
Proof.
  revert s. induction w as [|a w IH]; intros s; simpl.
  - split; congruence.
  - destruct s as [|c s]; [split; discriminate|].
    destruct (Ascii.eqb_spec a c) as [->|Hne].
    + rewrite IH. split; congruence.
    + split; [discriminate|]. intros [= ? ?]; congruence.
Qed.

Lemma strip_prefix_app w r : strip_prefix w (w ++ r) = Some r.
Proof. now apply strip_prefix_Some. Qed.

Lemma starts_with_true w s : starts_with w s = true <-> exists r, s = w ++ r.
Proof.
  unfold starts_with. split.
  - destruct (strip_prefix w s) eqn:E; [|discriminate].
    apply strip_prefix_Some in E. eauto.
  - intros [r ->]. now rewrite strip_prefix_app.
Qed.

(** ** The migration pattern *)

Lemma capture_alt_Some {A} ws (k : str -> @matcher A) c x :
  capture_alt ws k c = Some x -> exists w, In w ws /\ lit w (k w) c = Some x.
Proof.
  induction ws as [|w ws IH]; simpl; [discriminate|].
  destruct (lit w (k w) c) eqn:E.
  - intros [= ->]. eauto.
  - intros H. destruct (IH H) as (w' & ? & ?). eauto.
Qed.

Lemma levels_word_ends g :
  In g levels -> hd_word g = true /\ hd_word (rev g) = true /\ head g <> Some "l"%char.
Proof.
  unfold levels. simpl.
  intros [<-|[<-|[<-|[<-|[<-|[<-|[]]]]]]]; repeat split; discriminate.
Qed.

Lemma pattern_Some b s g c' :
  create_migration_pattern (Cursor b s) = Some (g, c') ->
  exists r, s = legacy_qualifier ++ g ++ r
    /\ c' = Cursor (rev (legacy_qualifier ++ g) ++ b) r
    /\ In g levels /\ ctx_ok b = true /\ hd_word r = false.
Proof.
  unfold create_migration_pattern, not_behind, word_boundary at 1, ctx_ok.
  cbn [behind ahead].
  destruct (starts_with (rev (text "log_level_v2::")) b); [discriminate|].
  destruct (starts_with (rev (text "_v2::")) b); [discriminate|].
  destruct (xorb (hd_word b) (hd_word s)) eqn:Hx; [|discriminate].
  unfold lit at 1. cbn [behind ahead].
  destruct (strip_prefix (text "log_level::") s) as [r0|] eqn:Hs; [|discriminate].
  apply strip_prefix_Some in Hs. subst s.
  intros H. apply capture_alt_Some in H as (w & Hw & H).
  unfold lit, word_boundary in H. cbn [behind ahead] in H.
  destruct (strip_prefix w r0) as [r|] eqn:Hr; [|discriminate].
  apply strip_prefix_Some in Hr. subst r0.
  destruct (levels_word_ends w Hw) as (_ & Hend & _).
  assert (Hh : hd_word (rev w ++ rev (text "log_level::") ++ b) = true).
  { destruct (rev w); [discriminate|exact Hend]. }
  rewrite Hh in H.
  destruct (hd_word r) eqn:Hr; [discriminate|].
  injection H as <- <-.
  exists r. split; [reflexivity|]. split.
  { unfold legacy_qualifier. now rewrite rev_app_distr, <- app_assoc. }
  split; [assumption|]. split; [|assumption].
  simpl in Hx. destruct (hd_word b); [discriminate|reflexivity].
Qed.

Lemma pattern_intro b g r :
  In g levels -> ctx_ok b = true -> hd_word r = false ->
  create_migration_pattern (Cursor b (legacy_qualifier ++ g ++ r))
  = Some (g, Cursor (rev (legacy_qualifier ++ g) ++ b) r).
Proof.
  intros Hg Hb Hr. unfold ctx_ok in Hb.
  apply andb_prop in Hb as [Hb Hw]. apply andb_prop in Hb as [Hb1 Hb2].
  apply negb_true_iff in Hb1, Hb2, Hw.
  unfold create_migration_pattern, not_behind, word_boundary at 1.
  cbn [behind ahead]. rewrite Hb1, Hb2, Hw.
  unfold levels in Hg. simpl in Hg.
  destruct Hg as [<-|[<-|[<-|[<-|[<-|[<-|[]]]]]]];
    cbn -[hd_word]; unfold word_boundary; cbn -[hd_word]; rewrite Hr; reflexivity.
Qed.

Lemma pattern_None_hd b a r :
  a <> "l"%char -> create_migration_pattern (Cursor b (a :: r)) = None.
Proof.
  intros Ha. destruct (create_migration_pattern _) as [[g c']|] eqn:E; [|reflexivity].
  apply pattern_Some in E as (r' & Hs & _). now injection Hs.
Qed.

Lemma pattern_None_ctx b s :
  ctx_ok b = false -> create_migration_pattern (Cursor b s) = None.
Proof.
  intros Hb. destruct (create_migration_pattern _) as [[g c']|] eqn:E; [|reflexivity].
  apply pattern_Some in E as (r' & _ & _ & _ & Hc & _). congruence.
Qed.

Lemma pattern_None_word b s :
  hd_word b = true -> create_migration_pattern (Cursor b s) = None.
Proof.
  intros Hb. apply pattern_None_ctx. unfold ctx_ok. rewrite Hb.
  now rewrite andb_false_r.
Qed.

Lemma pattern_None_prefix b s :
  strip_prefix legacy_qualifier s = None ->
  create_migration_pattern (Cursor b s) = None.
Proof.
  intros Hs. destruct (create_migration_pattern _) as [[g c']|] eqn:E; [|reflexivity].
  apply pattern_Some in E as (r' & -> & _).
  now rewrite strip_prefix_app in Hs.
Qed.

(** ** The substitution, one step at a time *)

Lemma sub_skip a b r : sub_scan b (length a) (a ++ r) = sub_scan (rev a ++ b) 0 r.
Proof.
  revert b. induction a as [|x a IH]; intros b; [reflexivity|].
  cbn [length app sub_scan]. rewrite IH. cbn [rev]. now rewrite <- app_assoc.
Qed.

Lemma sub_copy b a r :
  create_migration_pattern (Cursor b (a :: r)) = None ->
  sub_scan b 0 (a :: r) = a :: sub_scan (a :: b) 0 r.
Proof. intros H. cbn [sub_scan]. now rewrite H. Qed.

Lemma sub_match b g r :
  In g levels -> ctx_ok b = true -> hd_word r = false ->
  sub_scan b 0 (legacy_qualifier ++ g ++ r)
  = replace_match g ++ sub_scan (rev (legacy_qualifier ++ g) ++ b) 0 r.
Proof.
  intros Hg Hb Hr.
  pose proof (pattern_intro b g r Hg Hb Hr) as E.
  change (legacy_qualifier ++ g ++ r)
    with ("l"%char :: (tl legacy_qualifier ++ g) ++ r) in E |- *.
  cbn [sub_scan]. rewrite E. cbn [ahead]. f_equal.
  replace (length ((tl legacy_qualifier ++ g) ++ r) - length r)
    with (length (tl legacy_qualifier ++ g)) by (rewrite !length_app; lia).
  rewrite sub_skip. f_equal.
  change (legacy_qualifier ++ g) with ("l"%char :: (tl legacy_qualifier ++ g)).
  cbn [rev]. now rewrite <- app_assoc.
Qed.

(** The substitution either copies the next character or replaces a match. *)
Lemma sub_cases b a r :
  (create_migration_pattern (Cursor b (a :: r)) = None
   /\ sub_scan b 0 (a :: r) = a :: sub_scan (a :: b) 0 r)
  \/ (exists g r', a :: r = legacy_qualifier ++ g ++ r'
        /\ In g levels /\ ctx_ok b = true /\ hd_word r' = false
        /\ sub_scan b 0 (a :: r)
           = replace_match g ++ sub_scan (rev (legacy_qualifier ++ g) ++ b) 0 r').
Proof.
  destruct (create_migration_pattern (Cursor b (a :: r))) as [[g c']|] eqn:E.
  - right. apply pattern_Some in E as (r' & Hs & _ & Hg & Hb & Hr).
    exists g, r'. rewrite Hs. repeat (split; [assumption || reflexivity|]).
    now apply sub_match.
  - left. split; [reflexivity|]. now apply sub_copy.
Qed.

(** ** What the pattern sees of the text behind it *)

Lemma long_lookbehind_implied b :
  starts_with (rev (text "log_level_v2::")) b = true ->
  starts_with version_marker b = true.
Proof. intros H. apply starts_with_true in H as [r ->]. reflexivity. Qed.

Lemma ctx_ok_look b : ctx_ok b = negb (fst (look b)) && negb (snd (look b)).
Proof.
  unfold ctx_ok, look. cbn [fst snd]. fold version_marker.
  destruct (starts_with (rev (text "log_level_v2::")) b) eqn:E; [|reflexivity].
  now rewrite (long_lookbehind_implied b E).
Qed.

Lemma ctx_equiv_refl b : ctx_equiv b b.
Proof. now intros p. Qed.

Lemma ctx_equiv_cons a b b' : ctx_equiv b b' -> ctx_equiv (a :: b) (a :: b').
Proof.
  intros H p. specialize (H (p ++ [a])). now rewrite <- !app_assoc in H.
Qed.

Lemma ctx_equiv_ok b b' : ctx_equiv b b' -> ctx_ok b = ctx_ok b'.
Proof. intros H. rewrite !ctx_ok_look. specialize (H []). cbn [app] in H. now rewrite H. Qed.

Lemma starts_with_mid w p c x c' x' :
  one_of w c = false -> one_of w c' = false ->
  starts_with w (p ++ c :: x) = starts_with w (p ++ c' :: x').
Proof.
  unfold starts_with. revert p.
  induction w as [|a w IH]; intros p Hc Hc'; [reflexivity|].
  cbn [one_of existsb] in Hc, Hc'.
  apply orb_false_elim in Hc as [Hc Hcw], Hc' as [Hc' Hcw'].
  destruct p as [|y p]; cbn [app strip_prefix].
  - rewrite (Ascii.eqb_sym a c), Hc, (Ascii.eqb_sym a c'), Hc'. reflexivity.
  - destruct (Ascii.eqb a y); [|reflexivity]. now apply IH.
Qed.

Lemma ctx_equiv_after c x c' x' :
  is_word c = true -> is_word c' = true ->
  one_of version_marker c = false -> one_of version_marker c' = false ->
  ctx_equiv (c :: x) (c' :: x').
Proof.
  intros Hw Hw' Hc Hc' p. unfold look. f_equal.
  - now apply starts_with_mid.
  - destruct p; cbn [app hd_word]; congruence.
Qed.

(** Evaluate a closed piece of text inside the goal. *)
Ltac eval_closed t :=
  let v := eval vm_compute in t in change t with v.

Ltac eval_texts :=
  repeat match goal with
    | |- context [replace_match ?g] => eval_closed (replace_match g)
    | |- context [rev ?w] => eval_closed (rev w)
    | |- context [legacy_qualifier ++ ?g] => eval_closed (legacy_qualifier ++ g)
    | |- context [text ?w] => eval_closed (text w)
    end.

Ltac each_level H :=
  unfold levels in H; simpl in H;
  destruct H as [<-|[<-|[<-|[<-|[<-|[<-|[]]]]]]].

Lemma ctx_equiv_replaced g b b' :
  In g levels ->
  ctx_equiv (rev (legacy_qualifier ++ g) ++ b) (rev (replace_match g) ++ b').
Proof.
  intros Hg. each_level Hg; eval_texts; cbn [app];
    apply ctx_equiv_after; reflexivity.
Qed.

(** ** The replacement text is never matched again *)

Ltac copy_step :=
  rewrite sub_copy by
    first [ apply pattern_None_prefix; reflexivity
          | apply pattern_None_word; reflexivity
          | apply pattern_None_hd; discriminate ].

Lemma replace_copied g b t :
  In g levels ->
  sub_scan b 0 (replace_match g ++ t)
  = replace_match g ++ sub_scan (rev (replace_match g) ++ b) 0 t.
Proof.
  intros Hg. each_level Hg; eval_texts; cbn [app];
    repeat copy_step; reflexivity.
Qed.

(** ** Reading the input back from the output *)

Lemma replace_match_qualified g : exists v, replace_match g = new_qualifier ++ v.
Proof. unfold replace_match. eauto. Qed.

(** An output that does not begin with the new qualifier begins with a
    character that was copied. *)
Lemma out_inv b s x o :
  sub_scan b 0 s = x :: o ->
  strip_prefix new_qualifier (x :: o) = None ->
  exists r, s = x :: r /\ sub_scan (x :: b) 0 r = o
    /\ create_migration_pattern (Cursor b s) = None.
Proof.
  intros H Hx. destruct s as [|a r]; [discriminate|].
  destruct (sub_cases b a r) as [[E Hc]|(g & r' & _ & _ & _ & _ & Hm)].
  - rewrite Hc in H. injection H as -> <-. eauto.
  - rewrite Hm in H. destruct (replace_match_qualified g) as [v Hv].
    rewrite Hv, <- app_assoc in H. rewrite <- H, strip_prefix_app in Hx.
    discriminate.
Qed.

Lemma strip_prefix_word_none w r :
  hd_word w = true -> hd_word r = false -> strip_prefix w r = None.
Proof.
  destruct w as [|a w]; [discriminate|]. destruct r as [|y r]; [reflexivity|].
  cbn [hd_word strip_prefix]. intros Ha Hy.
  destruct (Ascii.eqb_spec a y); [congruence|reflexivity].
Qed.

Lemma strip_prefix_same a w r : strip_prefix (a :: w) (a :: r) = strip_prefix w r.
Proof. cbn [strip_prefix]. now rewrite Ascii.eqb_refl. Qed.

Lemma out_hd_word b s : hd_word (sub_scan b 0 s) = false -> hd_word s = false.
Proof.
  destruct s as [|a r]; [reflexivity|].
  destruct (sub_cases b a r) as [[_ ->]|(g & r' & _ & _ & _ & _ & ->)].
  - trivial.
  - destruct (replace_match_qualified g) as [v ->]. discriminate.
Qed.

Ltac out_step H :=
  let r := fresh "r" in
  apply out_inv in H as (r & -> & H & _);
    [| first [ reflexivity
             | eval_closed new_qualifier; rewrite strip_prefix_same;
               apply strip_prefix_word_none; [reflexivity | assumption] ] ].

(** If the output begins with a legacy occurrence and a word boundary, so
    does the input. *)
Lemma out_legacy_inv b s g r2 :
  In g levels ->
  sub_scan b 0 s = legacy_qualifier ++ g ++ r2 -> hd_word r2 = false ->
  exists r1, s = legacy_qualifier ++ g ++ r1 /\ hd_word r1 = false.
Proof.
  intros Hg H Hr2.
  each_level Hg;
    match type of H with _ = ?l ++ ?g ++ _ =>
      let v := eval vm_compute in (l ++ g) in
      change (l ++ g ++ r2) with (v ++ r2) in H;
      change (l ++ g) with v
    end;
    cbn [app] in H; repeat out_step H;
    eexists; (split; [reflexivity|]);
    rewrite <- H in Hr2; exact (out_hd_word _ _ Hr2).
Qed.

(** ** A second pass changes nothing *)

Lemma sub_scan_idem n : forall s b b',
  length s <= n -> ctx_equiv b b' ->
  sub_scan b' 0 (sub_scan b 0 s) = sub_scan b 0 s.
Proof.
  induction n as [|n IH]; intros s b b' Hn Hb.
  { destruct s; [reflexivity|simpl in Hn; lia]. }
  destruct s as [|a r]; [reflexivity|].
  destruct (sub_cases b a r) as [[E Hc]|(g & r' & Hs & Hg & Hok & Hr' & Hm)].
  - rewrite Hc.
    destruct (sub_cases b' a (sub_scan (a :: b) 0 r))
      as [[_ ->]|(g & r2 & Hs2 & Hg & Hok & Hr2 & _)].
    + f_equal. apply IH; [simpl in Hn; lia|now apply ctx_equiv_cons].
    + exfalso. rewrite <- Hc in Hs2.
      destruct (out_legacy_inv _ _ _ _ Hg Hs2 Hr2) as (r1 & Hs1 & Hr1).
      rewrite Hs1, pattern_intro in E; [discriminate|assumption| |assumption].
      now rewrite (ctx_equiv_ok _ _ Hb).
  - rewrite Hm, replace_copied by assumption. f_equal.
    apply IH; [|now apply ctx_equiv_replaced].
    apply (f_equal (@length ascii)) in Hs. rewrite !length_app in Hs.
    simpl in Hs, Hn. lia.
Qed.

Lemma pattern_sub_idempotent line : pattern_sub (pattern_sub line) = pattern_sub line.
Proof.
  unfold pattern_sub. apply (sub_scan_idem (length line)); [lia|].
  apply ctx_equiv_refl.
Qed.

(** ** Lines *)

Lemma nl_free_cons c l : nl_free (c :: l) <-> c <> newline /\ nl_free l.
Proof.
  unfold nl_free. cbn [forallb]. rewrite andb_true_iff.
  unfold any_but_newline. rewrite negb_true_iff, Ascii.eqb_neq. tauto.
Qed.

Lemma nl_free_app l1 l2 : nl_free (l1 ++ l2) <-> nl_free l1 /\ nl_free l2.
Proof. unfold nl_free. rewrite forallb_app, andb_true_iff. tauto. Qed.

Lemma split_nl_nonempty s : split_nl s <> [].
Proof.
  destruct s as [|c s]; cbn [split_nl]; [discriminate|].
  destruct (Ascii.eqb c newline); [discriminate|].
  destruct (split_nl s); discriminate.
Qed.

Lemma split_nl_free s : Forall nl_free (split_nl s).
Proof.
  induction s as [|c s IH]; cbn [split_nl].
  - repeat constructor.
  - destruct (Ascii.eqb_spec c newline) as [->|Hc].
    + constructor; [reflexivity|assumption].
    + destruct (split_nl s) as [|l ls].
      * repeat constructor. now apply nl_free_cons.
      * inversion IH; subst. constructor; [|assumption].
        now apply nl_free_cons.
Qed.

Lemma join_split s : join_nl (split_nl s) = s.
Proof.
  induction s as [|c s IH]; [reflexivity|]. cbn [split_nl].
  destruct (Ascii.eqb_spec c newline) as [->|Hc].
  - pose proof (split_nl_nonempty s) as Hne.
    destruct (split_nl s) as [|l ls]; [contradiction|].
    cbn [join_nl app] in *. now rewrite IH.
  - pose proof (split_nl_nonempty s) as Hne.
    destruct (split_nl s) as [|l ls]; [contradiction|].
    destruct ls; cbn [join_nl app] in *; now rewrite <- IH.
Qed.

Lemma split_nl_line l : nl_free l -> split_nl l = [l].
Proof.
  induction l as [|c l IH]; [reflexivity|].
  intros [Hc Hl]%nl_free_cons. cbn [split_nl].
  apply Ascii.eqb_neq in Hc. rewrite Hc, (IH Hl). reflexivity.
Qed.

Lemma split_nl_app l s :
  nl_free l -> split_nl (l ++ newline :: s) = l :: split_nl s.
Proof.
  induction l as [|c l IH]; intros Hl.
  - cbn [app split_nl]. now rewrite Ascii.eqb_refl.
  - apply nl_free_cons in Hl as [Hc Hl]. cbn [app split_nl].
    apply Ascii.eqb_neq in Hc. rewrite Hc, (IH Hl). reflexivity.
Qed.

Lemma split_join ls : ls <> [] -> Forall nl_free ls -> split_nl (join_nl ls) = ls.
Proof.
  induction ls as [|l ls IH]; [congruence|]. intros _ H.
  inversion H as [|? ? Hl Hls]; subst.
  destruct ls as [|l' ls].
  - now apply split_nl_line.
  - change (join_nl (l :: l' :: ls)) with (l ++ newline :: join_nl (l' :: ls)).
    rewrite split_nl_app by assumption. now rewrite IH.
Qed.

Lemma join_nl_inj ls1 ls2 :
  ls1 <> [] -> ls2 <> [] -> Forall nl_free ls1 -> Forall nl_free ls2 ->
  join_nl ls1 = join_nl ls2 -> ls1 = ls2.
Proof.
  intros H1 H2 F1 F2 E.
  rewrite <- (split_join ls1), <- (split_join ls2) by assumption. now rewrite E.
Qed.

Lemma replace_match_nl_free g : In g levels -> nl_free (replace_match g).
Proof. intros Hg. each_level Hg; vm_compute; reflexivity. Qed.

Lemma sub_scan_nl_free n : forall s b,
  length s <= n -> nl_free s -> nl_free (sub_scan b 0 s).
Proof.
  induction n as [|n IH]; intros s b Hn Hs.
  { destruct s; [reflexivity|simpl in Hn; lia]. }
  destruct s as [|a r]; [reflexivity|].
  destruct (sub_cases b a r) as [[_ ->]|(g & r' & E & Hg & _ & _ & ->)].
  - apply nl_free_cons in Hs as [Ha Hr]. apply nl_free_cons. split; [assumption|].
    apply IH; [simpl in Hn; lia|assumption].
  - rewrite E in Hs. apply nl_free_app in Hs as [_ Hs].
    apply nl_free_app in Hs as [_ Hs]. apply nl_free_app.
    split; [now apply replace_match_nl_free|].
    apply IH; [|assumption].
    apply (f_equal (@length ascii)) in E. rewrite !length_app in E.
    simpl in E, Hn. lia.
Qed.

Lemma pattern_sub_nl_free line : nl_free line -> nl_free (pattern_sub line).
Proof. apply (sub_scan_nl_free (length line)). lia. Qed.

(** ** The line loop *)

Lemma migrate_lines_fst i ls : fst (migrate_lines i ls) = map pattern_sub ls.
Proof.
  revert i. induction ls as [|l ls IH]; intros i; [reflexivity|].
  cbn [migrate_lines migrate_line map]. specialize (IH (S i)).
  destruct (migrate_lines (S i) ls). cbn [fst] in *. now rewrite IH.
Qed.

Lemma migrate_lines_unchanged i ls :
  snd (migrate_lines i ls) = [] <-> map pattern_sub ls = ls.
Proof.
  revert i. induction ls as [|l ls IH]; intros i; [easy|].
  cbn [migrate_lines migrate_line map]. specialize (IH (S i)).
  destruct (migrate_lines (S i) ls) as [nl chs]. cbn [snd] in *.
  destruct (bool_decide_reflect (pattern_sub l <> l)) as [Hne|He]; cbn [snd].
  - split; [discriminate|]. intros [= ? ?]. contradiction.
  - assert (pattern_sub l = l) as -> by (destruct (decide (pattern_sub l = l)); tauto).
    rewrite IH. split; [now intros ->|]. now intros [= ->].
Qed.

Lemma rewritten_lines_nonempty c : rewritten_lines c <> [].
Proof.
  unfold rewritten_lines. pose proof (split_nl_nonempty c).
  destruct (split_nl c); [contradiction|discriminate].
Qed.

Lemma rewritten_lines_nl_free c : Forall nl_free (rewritten_lines c).
Proof.
  unfold rewritten_lines. apply Forall_map.
  eapply Forall_impl; [apply split_nl_free|]. apply pattern_sub_nl_free.
Qed.

Lemma rewritten_lines_fixed c : map pattern_sub (rewritten_lines c) = rewritten_lines c.
Proof.
  unfold rewritten_lines. rewrite map_map. apply map_ext.
  intros l. apply pattern_sub_idempotent.
Qed.

(** [migrate_text] in terms of the rewritten lines. *)
Lemma migrate_text_unfold c :
  migrate_text c =
  (let chs := snd (migrate_lines 0 (split_nl c)) in
   let new_content := join_nl (rewritten_lines c) in
   (if negb (is_empty chs) && needs_include_update new_content
    then add_log_level_include new_content else new_content, chs)).
Proof.
  unfold migrate_text, rewritten_lines.
  rewrite <- (migrate_lines_fst 0). now destruct (migrate_lines 0 (split_nl c)).
Qed.

Lemma add_include_lines ls :
  ls <> [] -> Forall nl_free ls ->
  add_log_level_include (join_nl ls) =
  join_nl (if contains include_line (join_nl ls) then ls
           else list_insert_at (Z.to_nat (find_insert_index ls)) include_line ls).
Proof.
  intros Hne Hf. unfold add_log_level_include. now rewrite split_join.
Qed.

Lemma list_insert_at_nonempty {A} i (x : A) l : list_insert_at i x l <> [].
Proof. unfold list_insert_at. destruct (take i l); discriminate. Qed.

Lemma list_insert_at_length {A} i (x : A) l :
  length (list_insert_at i x l) = S (length l).
Proof.
  unfold list_insert_at. rewrite length_app. cbn [length].
  rewrite length_take, length_drop. lia.
Qed.

Lemma map_fixed_Forall {A} (f : A -> A) l :
  map f l = l <-> Forall (fun x => f x = x) l.
Proof.
  induction l as [|x l IH]; [easy|]. cbn [map]. split.
  - intros [= Hx Hl]. constructor; [assumption|now apply IH].
  - intros H. inversion H; subst. f_equal; [assumption|now apply IH].
Qed.

Lemma list_insert_at_Forall {A} (Q : A -> Prop) i x l :
  Q x -> Forall Q l -> Forall Q (list_insert_at i x l).
Proof.
  intros Hx Hl. unfold list_insert_at. apply Forall_app. split.
  - now apply Forall_take.
  - constructor; [assumption|now apply Forall_drop].
Qed.

(** The lines of the migrated content: the rewritten lines, with the
    declaration inserted among them or not. *)
Lemma migrate_text_lines c :
  exists ls, fst (migrate_text c) = join_nl ls /\ ls <> []
    /\ Forall nl_free ls /\ map pattern_sub ls = ls
    /\ (ls = rewritten_lines c
        \/ exists i, ls = list_insert_at i include_line (rewritten_lines c)).
Proof.
  rewrite migrate_text_unfold. cbn [fst].
  pose proof (rewritten_lines_nonempty c) as Hne.
  pose proof (rewritten_lines_nl_free c) as Hf.
  pose proof (rewritten_lines_fixed c) as Hfix.
  assert (Hold : exists ls, join_nl (rewritten_lines c) = join_nl ls /\ ls <> []
    /\ Forall nl_free ls /\ map pattern_sub ls = ls
    /\ (ls = rewritten_lines c
        \/ exists i, ls = list_insert_at i include_line (rewritten_lines c))).
  { exists (rewritten_lines c). auto 6. }
  destruct (negb _ && needs_include_update _); [|exact Hold].
  rewrite add_include_lines by assumption.
  destruct (contains include_line _); [exact Hold|].
  eexists. split; [reflexivity|]. split; [apply list_insert_at_nonempty|].
  split; [apply list_insert_at_Forall; [reflexivity|assumption]|].
  split; [|eauto].
  apply map_fixed_Forall. apply list_insert_at_Forall.
  - vm_compute. reflexivity.
  - apply map_fixed_Forall. exact Hfix.
Qed.

(** ** Occurrences and what precedes them *)

Lemma hd_word_rev_cons c p : p <> [] -> hd_word (rev (c :: p)) = hd_word (rev p).
Proof.
  intros Hp. cbn [rev]. destruct (rev p) eqn:E; [|reflexivity].
  apply (f_equal (@rev ascii)) in E. rewrite rev_involutive in E. contradiction.
Qed.

Lemma hd_word_app r x : r <> [] -> hd_word (r ++ x) = hd_word r.
Proof. now destruct r. Qed.

Lemma cut_inside_word w : forall p x r,
  safe_pairs w = true -> p ++ x = w ++ r -> p <> [] -> length p < length w ->
  hd_word (rev p) = false -> head x <> Some "l"%char.
Proof.
  induction w as [|c w IH]; intros p x r Hw E Hp Hlen Hnw; [simpl in Hlen; lia|].
  destruct p as [|c' p]; [contradiction|]. injection E as -> E.
  destruct p as [|c2 p].
  - cbn [app] in E. subst x. cbn [length] in Hlen.
    destruct w as [|d w]; [simpl in Hlen; lia|].
    cbn [safe_pairs] in Hw. apply andb_prop in Hw as [Hw _].
    cbn in Hnw. rewrite Hnw in Hw. cbn [orb] in Hw.
    apply negb_true_iff, Ascii.eqb_neq in Hw. cbn. congruence.
  - apply (IH (c2 :: p) x r); [|assumption|discriminate|simpl in *; lia|].
    + destruct w; [reflexivity|]. cbn [safe_pairs] in Hw.
      now apply andb_prop in Hw as [_ Hw].
    + now rewrite hd_word_rev_cons in Hnw.
Qed.

Lemma app_eq_long {A} (p x w r : list A) :
  p ++ x = w ++ r -> length w <= length p -> exists r', p = w ++ r' /\ r = r' ++ x.
Proof.
  revert p. induction w as [|c w IH]; intros p E Hlen; [eauto|].
  destruct p as [|c' p]; [simpl in Hlen; lia|]. injection E as -> E.
  destruct (IH p E) as (r' & -> & ->); [simpl in Hlen; lia|]. eauto.
Qed.

Lemma levels_safe g : In g levels -> safe_pairs (legacy_qualifier ++ g) = true.
Proof. intros Hg. each_level Hg; vm_compute; reflexivity. Qed.

Lemma hd_word_rev_app g p :
  hd_word (rev g) = true -> hd_word (rev (p ++ g)) = true.
Proof.
  intros Hg. rewrite rev_app_distr. destruct (rev g); [discriminate|exact Hg].
Qed.

(** An occurrence that begins before a cut after a non-word character, with
    the letter l behind the cut, lies before the cut. *)
Lemma pattern_app b p x :
  p <> [] -> hd_word (rev p) = false -> head x = Some "l"%char ->
  (create_migration_pattern (Cursor b p) = None
   /\ create_migration_pattern (Cursor b (p ++ x)) = None)
  \/ (exists g r, In g levels /\ ctx_ok b = true /\ r <> [] /\ hd_word r = false
        /\ p = legacy_qualifier ++ g ++ r).
Proof.
  intros Hp Hnw Hx.
  destruct (create_migration_pattern (Cursor b p)) as [[g c']|] eqn:E.
  - right. apply pattern_Some in E as (r & -> & _ & Hg & Hb & Hr).
    exists g, r. repeat (split; [assumption|]). split; [|now split].
    intros ->. rewrite !app_nil_r in Hnw.
    destruct (levels_word_ends g Hg) as (_ & Hend & _).
    rewrite hd_word_rev_app in Hnw by assumption. discriminate.
  - destruct (create_migration_pattern (Cursor b (p ++ x))) as [[g c']|] eqn:E';
      [|now left].
    exfalso. apply pattern_Some in E' as (r & Hs & _ & Hg & Hb & Hr).
    rewrite app_assoc in Hs.
    destruct (Nat.le_gt_cases (length (legacy_qualifier ++ g)) (length p)) as [Hl|Hl].
    + destruct (app_eq_long _ _ _ _ Hs Hl) as (r' & -> & ->).
      destruct r' as [|y r'].
      * cbn [app] in Hr. destruct x as [|d x]; [discriminate|].
        injection Hx as ->. discriminate.
      * rewrite <- app_assoc, pattern_intro in E; [discriminate|assumption..].
    + now apply (cut_inside_word _ _ _ _ (levels_safe g Hg) Hs Hp Hl Hnw).
Qed.

Lemma sub_scan_app n : forall p b x,
  length p <= n -> hd_word (rev p) = false -> head x = Some "l"%char ->
  sub_scan b 0 (p ++ x) = sub_scan b 0 p ++ sub_scan (rev p ++ b) 0 x.
Proof.
  induction n as [|n IH]; intros p b x Hn Hnw Hx.
  { destruct p; [reflexivity|simpl in Hn; lia]. }
  destruct p as [|a p]; [reflexivity|].
  destruct (pattern_app b (a :: p) x) as [[E E']|(g & r & Hg & Hb & Hr & Hwr & Hs)];
    [discriminate|assumption..| |].
  - cbn [app] in E' |- *. rewrite !sub_copy by assumption. cbn [app rev].
    rewrite <- app_assoc. cbn [app]. f_equal.
    destruct p as [|c p]; [reflexivity|].
    apply IH; [simpl in Hn |- *; lia| |assumption].
    now rewrite hd_word_rev_cons in Hnw.
  - assert (Hlen : length r < S n).
    { apply (f_equal (@length ascii)) in Hs. rewrite !length_app in Hs.
      simpl in Hs, Hn. lia. }
    assert (Hnr : hd_word (rev r) = false).
    { rewrite Hs, app_assoc, rev_app_distr in Hnw.
      rewrite hd_word_app in Hnw; [assumption|].
      intros E. apply (f_equal (@rev ascii)) in E.
      rewrite rev_involutive in E. contradiction. }
    rewrite Hs, <- !app_assoc.
    rewrite (sub_match b g (r ++ x)), (sub_match b g r);
      [|assumption|assumption|assumption|assumption|assumption|].
    2: now rewrite hd_word_app.
    rewrite <- app_assoc. f_equal.
    rewrite IH; [|lia|assumption|assumption].
    rewrite !rev_app_distr, <- !app_assoc. reflexivity.
Qed.

(** ** Idempotence *)

Lemma migrate_text_fixed ls :
  ls <> [] -> Forall nl_free ls -> map pattern_sub ls = ls ->
  migrate_text (join_nl ls) = (join_nl ls, []).
Proof.
  intros Hne Hf Hfix. rewrite migrate_text_unfold. unfold rewritten_lines.
  rewrite split_join by assumption.
  pose proof (proj2 (migrate_lines_unchanged 0 ls) Hfix) as ->.
  cbn. now rewrite Hfix.
Qed.

(** C1. Idempotence of the rewrite: migrating the content that the per-file
    migration (pattern rewrite and include injection) produced records no
    change and returns that content as it is. *)
Theorem migrate_text_idempotent (content : str) :
  let once := fst (migrate_text content) in
  snd (migrate_text once) = [] /\ fst (migrate_text once) = once.
Proof.
  cbn zeta.
  destruct (migrate_text_lines content) as (ls & -> & Hne & Hf & Hfix & _).
  rewrite migrate_text_fixed by assumption. split; reflexivity.
Qed.

(** ** Mapping fidelity *)

Lemma mapping_level k v :
  In (k, v) LEVEL_MAPPINGS -> In k levels /\ replace_match k = new_qualifier ++ v.
Proof.
  unfold LEVEL_MAPPINGS. simpl.
  intros [[= <- <-]|[[= <- <-]|[[= <- <-]|[[= <- <-]|[[= <- <-]|[[= <- <-]|[]]]]]]];
    (split; [unfold levels; simpl; tauto|vm_compute; reflexivity]).
Qed.

Lemma ctx_ok_intro b :
  hd_word b = false -> starts_with version_marker b = false -> ctx_ok b = true.
Proof. intros Hw Hv. rewrite ctx_ok_look. unfold look. cbn [fst snd]. now rewrite Hw, Hv. Qed.

(** C2. Mapping fidelity: an occurrence [log_level::k] of a legacy key [k]
    that the pattern recognises (no word character and no [_v2::] before it,
    no word character after it) is replaced by exactly [log_level_v2::v] with
    [v] the value the table maps [k] to, the text before it and after it
    being rewritten on their own; and the value of [warning] is [warn]. *)
Theorem mapping_fidelity (p k v q : str) :
  In (k, v) LEVEL_MAPPINGS ->
  hd_word (rev p) = false ->
  ends_with (text "_v2::") p = false ->
  hd_word q = false ->
  fst (migrate_line (p ++ text "log_level::" ++ k ++ q))
  = fst (migrate_line p) ++ text "log_level_v2::" ++ v
      ++ sub_scan (rev (p ++ text "log_level::" ++ k)) 0 q
  /\ (k = text "warning" -> v = text "warn").
Proof.
  intros Hkv Hp Hv Hq. destruct (mapping_level k v Hkv) as [Hk Hr]. split.
  - cbn [migrate_line fst]. unfold pattern_sub.
    rewrite (sub_scan_app (length p)); [|lia|assumption|reflexivity].
    rewrite app_nil_r. f_equal.
    fold legacy_qualifier. rewrite sub_match; [|assumption| |assumption].
    + rewrite Hr. unfold new_qualifier. rewrite <- !app_assoc.
      do 2 f_equal. rewrite !rev_app_distr, <- !app_assoc. reflexivity.
    + now apply ctx_ok_intro.
  - intros ->. unfold LEVEL_MAPPINGS in Hkv. simpl in Hkv.
    destruct Hkv as [E|[E|[E|[E|[E|[E|[]]]]]]]; now inversion E.
Qed.

Lemma mapping_fidelity_witness :
  fst (migrate_line (text "auto lvl = " ++ text "log_level::" ++ text "warning" ++ text ";"))
  = fst (migrate_line (text "auto lvl = ")) ++ text "log_level_v2::" ++ text "warn"
      ++ sub_scan (rev (text "auto lvl = " ++ text "log_level::" ++ text "warning")) 0 (text ";")
  /\ (text "warning" = text "warning" -> text "warn" = text "warn").
Proof.
  apply (mapping_fidelity (text "auto lvl = ") (text "warning") (text "warn") (text ";")).
  - unfold LEVEL_MAPPINGS. simpl. tauto.
  - reflexivity.
  - reflexivity.
  - reflexivity.
Defined.

(** C2 as first stated, for every qualified occurrence, fails on the code: an
    occurrence between word boundaries that follows [_v2::] is not replaced,
    and the line is not even flagged as changed. *)
Lemma versioned_namespace_occurrence_kept :
  In (text "warning", text "warn") LEVEL_MAPPINGS
  /\ hd_word (rev (text "auto l = kcenon::thread_v2::")) = false
  /\ hd_word (text ";") = false
  /\ migrate_line (text "auto l = kcenon::thread_v2::" ++ text "log_level::"
                     ++ text "warning" ++ text ";")
     = (text "auto l = kcenon::thread_v2::log_level::warning;", false)
  /\ fst (migrate_line (text "auto l = kcenon::thread_v2::" ++ text "log_level::"
                          ++ text "warning" ++ text ";"))
     <> fst (migrate_line (text "auto l = kcenon::thread_v2::"))
          ++ text "log_level_v2::" ++ text "warn"
          ++ sub_scan (rev (text "auto l = kcenon::thread_v2::" ++ text "log_level::"
                              ++ text "warning")) 0 (text ";").
Proof.
  split; [unfold LEVEL_MAPPINGS; simpl; tauto|].
  split; [reflexivity|]. split; [reflexivity|].
  split; [vm_compute; reflexivity|].
  intros H. vm_compute in H. discriminate.
Qed.

(** ** Searching *)

Lemma search_from_app {A} (m : @matcher A) a : forall b r,
  is_Some (m (Cursor (rev a ++ b) r)) -> is_Some (search_from m b (a ++ r)).
Proof.
  induction a as [|c a IH]; intros b r H.
  - cbn [app rev] in *. destruct r; cbn [search_from];
      destruct H as [x ->]; eauto.
  - cbn [app search_from]. destruct (m (Cursor b (c :: a ++ r))); [eauto|].
    apply IH. cbn [rev] in H. now rewrite <- app_assoc in H.
Qed.

Lemma search_from_Some {A} (m : @matcher A) s : forall b,
  is_Some (search_from m b s) ->
  exists a r, s = a ++ r /\ is_Some (m (Cursor (rev a ++ b) r)).
Proof.
  induction s as [|c s IH]; intros b H; cbn [search_from] in H.
  - exists [], []. split; [reflexivity|]. cbn [rev app].
    destruct (m (Cursor b [])); [eauto|]. now destruct H.
  - destruct (m (Cursor b (c :: s))) eqn:E.
    + exists [], (c :: s). split; [reflexivity|]. cbn [rev app]. rewrite E. eauto.
    + destruct (IH _ H) as (a & r & -> & Hm).
      exists (c :: a), r. split; [reflexivity|].
      cbn [rev]. now rewrite <- app_assoc.
Qed.

Lemma star_from_reach {A} p (k : @matcher A) u : forall b r,
  forallb p u = true -> is_Some (k (Cursor (rev u ++ b) r)) ->
  is_Some (star_from p k b (u ++ r)).
Proof.
  induction u as [|c u IH]; intros b r Hu Hk.
  - cbn [app rev] in *. destruct r as [|c r]; cbn [star_from]; [assumption|].
    destruct (p c); [|assumption].
    destruct (star_from p k (c :: b) r); [eauto|assumption].
  - cbn [forallb] in Hu. apply andb_prop in Hu as [Hc Hu].
    cbn [app star_from]. rewrite Hc.
    cbn [rev] in Hk. rewrite <- app_assoc in Hk.
    destruct (IH (c :: b) r Hu Hk) as [x ->]. eauto.
Qed.

Lemma contains_iff w s : contains w s = true <-> exists a b, s = a ++ w ++ b.
Proof.
  unfold contains, re_search. split.
  - destruct (search_from (lit w accept) [] s) eqn:E; [|discriminate]. intros _.
    destruct (search_from_Some (lit w accept) s []) as (a & r & -> & Hm);
      [rewrite E; eauto|].
    unfold lit in Hm. cbn [ahead] in Hm.
    destruct (strip_prefix w r) as [r'|] eqn:Hr; [|now destruct Hm].
    apply strip_prefix_Some in Hr. subst r. eauto.
  - intros (a & b & ->).
    destruct (search_from_app (lit w accept) a [] (w ++ b)) as [x ->]; [|reflexivity].
    unfold lit. cbn [ahead]. rewrite strip_prefix_app. cbn. eauto.
Qed.

(** The declaration the tool inserts is one the trigger recognises. *)
Lemma include_line_declared a b :
  re_search log_level_include_re (a ++ include_line ++ b) = true.
Proof.
  unfold re_search.
  destruct (search_from_app (log_level_include_re accept) a [] (include_line ++ b))
    as [x ->]; [|reflexivity].
  unfold log_level_include_re.
  change (include_line ++ b)
    with (text "#include" ++ text " " ++ "<"%char
            :: text "kcenon/thread/core/" ++ text "log_level.h" ++ ">"%char :: b).
  unfold lit at 1. cbn [ahead behind]. rewrite strip_prefix_app.
  unfold star at 1. cbn [ahead behind].
  apply star_from_reach; [reflexivity|].
  unfold cls at 1. cbn [ahead behind one_of existsb]. rewrite Ascii.eqb_refl.
  cbn [orb]. unfold star. cbn [ahead behind].
  apply star_from_reach; [reflexivity|].
  unfold lit. cbn [ahead behind]. rewrite strip_prefix_app.
  unfold cls. cbn [ahead behind one_of existsb]. rewrite Ascii.eqb_refl.
  cbn. eauto.
Qed.

Lemma declared_if_present s :
  contains include_line s = true -> re_search log_level_include_re s = true.
Proof. intros (a & b & ->)%contains_iff. apply include_line_declared. Qed.

(** ** Include injection *)

Lemma scan_includes_bound lines : forall i acc,
  (-1 <= acc <= Z.of_nat i)%Z ->
  (-1 <= scan_includes i acc lines <= Z.of_nat (i + length lines))%Z.
Proof.
  induction lines as [|l lines IH]; intros i acc Hacc; cbn [scan_includes length].
  - lia.
  - replace (i + S (length lines)) with (S i + length lines) by lia.
    apply IH.
    destruct (re_search thread_include_re l); [lia|].
    destruct (starts_with (text "#include") l && (acc =? -1)%Z); lia.
Qed.

Lemma scan_guards_bound lines : forall i,
  (-1 <= scan_guards i lines <= Z.of_nat (i + length lines))%Z.
Proof.
  induction lines as [|l lines IH]; intros i; cbn [scan_guards length].
  - lia.
  - destruct (starts_with (text "#pragma once") l || re_match header_guard_re l).
    + lia.
    + specialize (IH (S i)). lia.
Qed.

Lemma find_insert_index_bound lines :
  (0 <= find_insert_index lines <= Z.of_nat (length lines))%Z.
Proof.
  unfold find_insert_index.
  pose proof (scan_includes_bound lines 0 (-1)%Z ltac:(lia)) as H1.
  pose proof (scan_guards_bound lines 0) as H2. cbn [Nat.add] in H1, H2.
  destruct (Z.eqb_spec (scan_includes 0 (-1) lines) (-1)); [|lia].
  destruct (Z.eqb_spec (scan_guards 0 lines) (-1)); lia.
Qed.




(** The scenario of the specification: one line, one change at line 1, the
    declaration inserted once. *)
Example warning_scenario_result :
  migrate_text warning_scenario
  = (join_nl [include_line; text "auto lvl = log_level_v2::warn;"],
     [(1, text "auto lvl = log_level::warning;", text "auto lvl = log_level_v2::warn;")]).
Proof. vm_compute. reflexivity. Qed.

(** ** Insertion point *)

(** C3. On a file with two includes, neither of them from [kcenon/thread],
    the declaration is inserted after the first include, before the last
    one: the fallback branch of the scan only fires while no index has been
    found. *)
Theorem include_after_first_not_last :
  fst (migrate_text two_includes)
  = join_nl [text "#include <string>"; include_line; text "#include <vector>";
             text "auto lvl = log_level_v2::info;"].
Proof. vm_compute. reflexivity. Qed.

(** What the scan does in general when no line is a [kcenon/thread] include:
    it stops at the first line that starts with [#include]. *)
Lemma scan_includes_first pre line post :
  Forall (fun l => re_search thread_include_re l = false) (pre ++ line :: post) ->
  Forall (fun l => starts_with (text "#include") l = false) pre ->
  starts_with (text "#include") line = true ->
  find_insert_index (pre ++ line :: post) = (Z.of_nat (length pre) + 1)%Z.
Proof.
  intros Hth Hpre Hline. unfold find_insert_index.
  assert (Hkeep : forall ls i acc, acc <> (-1)%Z ->
    Forall (fun l => re_search thread_include_re l = false) ls ->
    scan_includes i acc ls = acc).
  { induction ls as [|l ls IH]; intros i acc Hacc Hls; [reflexivity|].
    inversion Hls as [|? ? Hl Hls']; subst. cbn [scan_includes]. rewrite Hl.
    apply Z.eqb_neq in Hacc. rewrite Hacc, andb_false_r. apply IH; [|assumption].
    now apply Z.eqb_neq. }
  assert (Hscan : forall pre i,
    Forall (fun l => re_search thread_include_re l = false) (pre ++ line :: post) ->
    Forall (fun l => starts_with (text "#include") l = false) pre ->
    scan_includes i (-1) (pre ++ line :: post) = (Z.of_nat (i + length pre) + 1)%Z).
  { clear Hth Hpre. induction pre0 as [|l pre0 IH]; intros i Hth Hpre.
    - cbn [app scan_includes length]. inversion Hth as [|? ? Hl Hth']; subst.
      rewrite Hl, Hline. cbn. rewrite Hkeep; [f_equal; lia|lia|assumption].
    - cbn [app scan_includes length]. inversion Hth as [|? ? Hl Hth']; subst.
      inversion Hpre as [|? ? Hs Hpre']; subst. rewrite Hl, Hs. cbn [andb].
      rewrite IH by assumption. f_equal. lia. }
  rewrite (Hscan pre 0 Hth Hpre). cbn [Nat.add].
  destruct (Z.eqb_spec (Z.of_nat (length pre) + 1) (-1)); [lia|reflexivity].
Qed.

(** ** Changes and content *)

Lemma migrate_text_unchanged c : snd (migrate_text c) = [] -> fst (migrate_text c) = c.
Proof.
  rewrite migrate_text_unfold. cbn [fst snd]. intros H. rewrite H. cbn.
  apply migrate_lines_unchanged in H. unfold rewritten_lines.
  now rewrite H, join_split.
Qed.

Lemma migrate_text_changed c : snd (migrate_text c) <> [] <-> fst (migrate_text c) <> c.
Proof.
  split.
  - intros Hch Heq.
    destruct (migrate_text_lines c) as (ls & Hj & Hne & Hf & _ & Hls).
    rewrite Hj, <- (join_split c) in Heq.
    apply join_nl_inj in Heq;
      [|assumption|apply split_nl_nonempty|assumption|apply split_nl_free].
    rewrite migrate_text_unfold in Hch. cbn [snd] in Hch.
    rewrite migrate_lines_unchanged in Hch. fold (rewritten_lines c) in Hch.
    destruct Hls as [->|[i ->]]; [contradiction|].
    apply (f_equal (@length str)) in Heq. rewrite list_insert_at_length in Heq.
    unfold rewritten_lines in Heq. rewrite length_map in Heq. lia.
  - intros Hne Hch. now apply Hne, migrate_text_unchanged.
Qed.

(** ** The runner *)

Lemma quiet_refl w : quiet w w.
Proof. now split. Qed.

Lemma quiet_trans w1 w2 w3 : quiet w1 w2 -> quiet w2 w3 -> quiet w1 w3.
Proof. intros [? ?] [? ?]. split; congruence. Qed.

Lemma quiet_emit e w : is_write e = false -> quiet w (emit e w).
Proof.
  intros He. split; [reflexivity|]. cbn [emit trace].
  rewrite List.filter_app. cbn [List.filter]. rewrite He. apply app_nil_r.
Qed.

Lemma quiet_print s w : quiet w (print s w).
Proof. now apply quiet_emit. Qed.

Lemma quiet_print_err s w : quiet w (print_err s w).
Proof. now apply quiet_emit. Qed.

Lemma quiet_fold {A} (f : world -> A -> world) l :
  (forall w x, quiet w (f w x)) -> forall w, quiet w (fold_left f l w).
Proof.
  intros Hf. induction l as [|x l IH]; intros w; [apply quiet_refl|].
  cbn [fold_left]. eapply quiet_trans; [apply Hf|apply IH].
Qed.








(** ** Skip filter *)


Lemma contains_elem z s : In z s -> contains [z] s = true.
Proof.
  intros (x & y & ->)%in_split. apply contains_iff. now exists x, y.
Qed.


Lemma basename_noslash s : contains (text "/") s = false -> basename s = s.
Proof. destruct s; [reflexivity|]. cbn [basename]. now intros ->. Qed.

Lemma basename_join dir name :
  contains (text "/") name = false -> basename (dir ++ text "/" ++ name) = name.
Proof.
  intros Hn. induction dir as [|c dir IH].
  - cbn [app text list_ascii_of_string basename].
    rewrite (proj2 (contains_iff _ _)) by (now exists [], name).
    now apply basename_noslash.
  - cbn [app basename].
    rewrite (proj2 (contains_iff _ _)) by (now exists (c :: dir), name).
    exact IH.
Qed.


Lemma should_skip_file_eq filepath :
  should_skip_file filepath =
  if contains logger_interface_h (basename filepath)
  then (true, text "Matches skip pattern: logger_interface\.h")
  else if contains thread_logger_h (basename filepath)
  then (true, text "Matches skip pattern: thread_logger\.h")
  else (false, []).
Proof. reflexivity. Qed.

Lemma should_skip_fst filepath :
  fst (should_skip_file filepath)
  = contains logger_interface_h (basename filepath)
    || contains thread_logger_h (basename filepath).
Proof.
  rewrite should_skip_file_eq.
  destruct (contains logger_interface_h _); [reflexivity|].
  now destruct (contains thread_logger_h _).
Qed.


Section RunnerFacts.
Variable P : Platform.

Lemma migrate_file_skip p d w :
  fst (should_skip_file p) = true ->
  migrate_file P p d w =
  ({| path := p; original_content := []; new_content := []; changes := [];
      skipped := true; skip_reason := snd (should_skip_file p);
      error := None |}, w).
Proof.
  unfold migrate_file. destruct (should_skip_file p) as [s r].
  cbn [fst snd]. now intros ->.
Qed.

Lemma migrate_file_error p d w e :
  fst (should_skip_file p) = false -> open_read P (fs w) p = inr e ->
  migrate_file P p d w =
  ({| path := p; original_content := []; new_content := []; changes := [];
      skipped := false; skip_reason := [];
      error := Some (text "Failed to read file: " ++ e) |},
   emit (Opened p) w).
Proof.
  unfold migrate_file. destruct (should_skip_file p) as [s r].
  cbn [fst snd emit fs]. intros -> E. now rewrite E.
Qed.

Lemma migrate_file_ok p d w c :
  fst (should_skip_file p) = false -> open_read P (fs w) p = inl c ->
  migrate_file P p d w =
  ({| path := p; original_content := c; new_content := fst (migrate_text c);
      changes := snd (migrate_text c); skipped := false; skip_reason := [];
      error := None |},
   emit (Opened p) w).
Proof.
  unfold migrate_file. destruct (should_skip_file p) as [s r].
  cbn [fst snd emit fs]. intros -> E. rewrite E.
  now destruct (migrate_text c).
Qed.

Lemma quiet_print_diff r w : quiet w (print_diff P r w).
Proof.
  unfold print_diff. destruct (_ && _); [apply quiet_refl|].
  apply quiet_fold. intros w' line. unfold print_diff_line.
  destruct (_ && _); [now apply quiet_emit|].
  destruct (_ && _); now apply quiet_emit.
Qed.

Lemma quiet_print_change w ch : quiet w (print_change w ch).
Proof.
  destruct ch as [[i old] new]. cbn [print_change].
  eapply quiet_trans; [|apply quiet_print].
  eapply quiet_trans; [|apply quiet_print]. apply quiet_print.
Qed.

(** The reporting step of a changed file writes nothing. *)
Lemma quiet_report (by_diff listing : bool) r chs title w :
  quiet w
    (if by_diff then print [] (print_diff P r w)
     else if listing then fold_left print_change chs (print title w)
     else w).
Proof.
  destruct by_diff.
  - eapply quiet_trans; [apply quiet_print_diff|apply quiet_print].
  - destruct listing; [|apply quiet_refl].
    eapply quiet_trans; [apply quiet_print|].
    apply quiet_fold. apply quiet_print_change.
Qed.

Lemma process_file_skip args n w p :
  fst (should_skip_file p) = true ->
  process_file P args (n, w) p =
  (Counters (total_changes n) (files_changed n) (S (files_skipped n)),
   if args_verbose args
   then print (text "Skipped: " ++ p ++ text " (" ++ snd (should_skip_file p)
                 ++ text ")") w
   else w).
Proof. intros Hs. unfold process_file. now rewrite migrate_file_skip. Qed.

Lemma process_file_error args n w p e :
  fst (should_skip_file p) = false -> open_read P (fs w) p = inr e ->
  process_file P args (n, w) p =
  (n, print_err (text "Error processing " ++ p ++ text ": "
                   ++ text "Failed to read file: " ++ e)
        (emit (Opened p) w)).
Proof.
  intros Hs He. unfold process_file. now rewrite (migrate_file_error _ _ _ e).
Qed.

(** A dry run writes nothing, whatever the file. *)
Lemma process_file_dry args st p :
  args_dry_run args = true -> quiet (snd st) (snd (process_file P args st p)).
Proof.
  intros Hdry. destruct st as [n w]. cbn [snd].
  destruct (fst (should_skip_file p)) eqn:Hs.
  { rewrite process_file_skip by assumption. cbn [snd].
    destruct (args_verbose args); [apply quiet_print|apply quiet_refl]. }
  destruct (open_read P (fs w) p) as [c|e] eqn:Hr.
  2:{ rewrite (process_file_error _ _ _ _ e) by assumption. cbn [snd].
      eapply quiet_trans; [|apply quiet_print_err]. now apply quiet_emit. }
  unfold process_file. rewrite (migrate_file_ok _ _ _ c) by assumption.
  cbn [error skipped changes new_content].
  eapply quiet_trans; [apply (quiet_emit (Opened p)); reflexivity|].
  destruct (is_empty (snd (migrate_text c))); cbn [snd].
  - destruct (args_verbose args); [apply quiet_print|apply quiet_refl].
  - rewrite Hdry. apply quiet_report.
Qed.


Lemma process_files_dry args files : forall st,
  args_dry_run args = true -> quiet (snd st) (snd (process_files P args files st)).
Proof.
  unfold process_files.
  induction files as [|p files IH]; intros st Hdry; [apply quiet_refl|].
  cbn [fold_left].
  eapply quiet_trans; [|apply IH; assumption]. now apply process_file_dry.
Qed.


Lemma quiet_print_summary args files n w : quiet w (print_summary args files (n, w)).
Proof.
  unfold print_summary.
  repeat first
    [ apply quiet_refl
    | match goal with |- quiet _ (if ?c then _ else _) => destruct c end
    | eapply quiet_trans; [|apply quiet_print] ].
Qed.
End RunnerFacts.

(** ** Scenarios *)

(** Occurrences already in the migrated form, or inside a longer identifier,
    are left alone; a namespace prefix does not prevent the rewrite. *)
Example rewrite_examples :
  pattern_sub (text "f(log_level_v2::trace, x_v2::log_level::trace)")
    = text "f(log_level_v2::trace, x_v2::log_level::trace)"
  /\ pattern_sub (text "my_log_level::trace + log_level::tracer")
     = text "my_log_level::trace + log_level::tracer"
  /\ pattern_sub (text "kcenon::thread::log_level::error, log_level::critical")
     = text "kcenon::thread::log_level_v2::error, log_level_v2::critical".
Proof. repeat split; vm_compute; reflexivity. Qed.

Example decimal_examples : decimal 0 = text "0" /\ decimal 1298 = text "1298".
Proof. split; vm_compute; reflexivity. Qed.

(** The scenario of the specification: a file that matches a skip pattern and
    contains a legacy occurrence is reported as skipped and left as it is. *)
Example skipped_file_scenario :
  let st := process_file flat_platform (demo_args false) (Counters 0 0 0, demo_world)
              (text "src/logger_interface.h") in
  st = (Counters 0 0 1, demo_world).
Proof. vm_compute. reflexivity. Qed.

(** The scenario of the specification: three files, two with matches and one
    without. *)
Example three_files_scenario :
  let files := [text "src/a.cpp"; text "src/b.h"; text "src/c.cpp"] in
  fst (process_files flat_platform (demo_args false) files (Counters 0 0 0, demo_world))
  = Counters 2 2 0.
Proof. vm_compute. reflexivity. Qed.

(** ** Invariant of a migration result *)

(** C4. MigrationResult invariant: for the result of processing one file, if
    [skipped] is set then [changes] is empty and the turn of the loop on that
    file writes nothing; and [changes] is non-empty exactly when
    [new_content] differs from [original_content]. *)
Theorem migration_result_invariant
    (P : Platform) (args : Args) (n : counters) (w : world) (filepath : str) :
  let r := fst (migrate_file P filepath (args_dry_run args) w) in
  let w' := snd (process_file P args (n, w) filepath) in
  (skipped r = true ->
   changes r = [] /\ fs w' = fs w
   /\ List.filter is_write (trace w') = List.filter is_write (trace w))
  /\ (changes r <> [] <-> new_content r <> original_content r).
Proof.
  cbn zeta. destruct (fst (should_skip_file filepath)) eqn:Hs.
  { rewrite process_file_skip, migrate_file_skip by assumption.
    cbn [fst snd skipped changes new_content original_content]. split; [|tauto].
    intros _. split; [reflexivity|].
    destruct (args_verbose args); [apply quiet_print|apply quiet_refl]. }
  destruct (open_read P (fs w) filepath) as [c|e] eqn:Hr.
  - rewrite (migrate_file_ok _ _ _ _ c) by assumption.
    cbn [fst skipped changes new_content original_content].
    split; [discriminate|apply migrate_text_changed].
  - rewrite (migrate_file_error _ _ _ _ e) by assumption.
    cbn [fst skipped changes new_content original_content].
    split; [discriminate|tauto].
Qed.

Lemma migration_result_invariant_witness :
  let r := fst (migrate_file flat_platform (text "src/logger_interface.h") false demo_world) in
  let w' := snd (process_file flat_platform (demo_args false) (Counters 0 0 0, demo_world)
                   (text "src/logger_interface.h")) in
  skipped r = true
  /\ (skipped r = true ->
      changes r = [] /\ fs w' = fs demo_world
      /\ List.filter is_write (trace w') = List.filter is_write (trace demo_world))
  /\ (changes r <> [] <-> new_content r <> original_content r).
Proof.
  split; [vm_compute; reflexivity|].
  exact (migration_result_invariant flat_platform (demo_args false) (Counters 0 0 0)
           demo_world (text "src/logger_interface.h")).
Defined.

(** ** Skip enforcement *)




(** ** Dry run *)

(** C7. Dry-run purity: with [--dry-run] the run leaves the file system as it
    found it and performs no write and no backup copy. *)
Theorem dry_run_purity (P : Platform) (args : Args) (w : world) :
  args_dry_run args = true ->
  fs (fst (main P args w)) = fs w
  /\ List.filter is_write (trace (fst (main P args w))) = List.filter is_write (trace w).
Proof.
  intros Hdry. change (quiet w (fst (main P args w))).
  unfold main. destruct (negb _); cbn [fst]; [apply quiet_print_err|].
  destruct (is_empty _); cbn [fst]; [apply quiet_print|].
  set (w1 := if args_verbose args then _ else w).
  assert (H1 : quiet w w1).
  { subst w1. destruct (args_verbose args); [apply quiet_print|apply quiet_refl]. }
  pose proof (process_files_dry P args
    (find_files P (fs w) (args_path args)) (Counters 0 0 0, w1) Hdry) as H2.
  destruct (process_files P args _ _) as [n2 w2]. cbn [snd] in H2.
  eapply quiet_trans; [apply H1|].
  eapply quiet_trans; [apply H2|]. apply quiet_print_summary.
Qed.

Lemma dry_run_purity_witness :
  args_dry_run (demo_args true) = true
  /\ fs (fst (main flat_platform (demo_args true) demo_world)) = fs demo_world
  /\ List.filter is_write (trace (fst (main flat_platform (demo_args true) demo_world)))
     = List.filter is_write (trace demo_world).
Proof.
  split; [reflexivity|].
  apply (dry_run_purity flat_platform (demo_args true) demo_world). reflexivity.
Defined.

(** ** Errors *)

(** C9. Path not found: when the path given on the command line does not
    exist, the run ends with exit code 1 having done nothing but print the
    error: the file system is as before and no file was opened, written or
    copied. *)
Theorem path_not_found (P : Platform) (args : Args) (w : world) :
  path_exists P (fs w) (args_path args) = false ->
  main P args w
  = (World (fs w)
       (trace w ++ [Stderr (text "Error: Path does not exist: " ++ args_path args
                              ++ [newline])]),
     1%Z).
Proof.
  intros Hex. unfold main. rewrite Hex. cbn [negb].
  unfold print_err, emit. cbn [fs trace]. now rewrite <- app_assoc.
Qed.

Lemma path_not_found_witness :
  path_exists flat_platform demo_fs (text "nowhere") = false
  /\ main flat_platform missing_args demo_world
     = (World demo_fs [Stderr (text "Error: Path does not exist: " ++ text "nowhere"
                                 ++ [newline])],
        1%Z).
Proof.
  split; [vm_compute; reflexivity|].
  apply (path_not_found flat_platform missing_args demo_world).
  vm_compute. reflexivity.
Defined.

(** ** The skip decision *)

(** C10. The skip decision is a substring test on the base name alone: a
    file is skipped exactly when its base name contains [logger_interface.h]
    or [thread_logger.h], the first pattern found giving the reason; the
    directories of the path do not matter, nor does the content behind it;
    so [logger_interface.hpp] and [my_thread_logger.h] are skipped too. *)
Theorem skip_decision (filepath : str) :
  should_skip_file filepath
  = (if contains (text "logger_interface.h") (basename filepath)
     then (true, text "Matches skip pattern: logger_interface\.h")
     else if contains (text "thread_logger.h") (basename filepath)
     then (true, text "Matches skip pattern: thread_logger\.h")
     else (false, []))
  /\ (fst (should_skip_file filepath) = true <->
      (exists a b, basename filepath = a ++ text "logger_interface.h" ++ b)
      \/ (exists a b, basename filepath = a ++ text "thread_logger.h" ++ b))
  /\ (forall dir name, contains (text "/") name = false ->
        basename (dir ++ text "/" ++ name) = name
        /\ should_skip_file (dir ++ text "/" ++ name) = should_skip_file name)
  /\ (forall P dry w,
        skipped (fst (migrate_file P filepath dry w)) = fst (should_skip_file filepath))
  /\ fst (should_skip_file (text "logger_interface.hpp")) = true
  /\ fst (should_skip_file (text "my_thread_logger.h")) = true.
Proof.
  split; [apply should_skip_file_eq|]. split.
  { rewrite should_skip_fst, orb_true_iff.
    unfold logger_interface_h, thread_logger_h. now rewrite !contains_iff. }
  split.
  { intros dir name Hn. split; [now apply basename_join|].
    unfold should_skip_file.
    now rewrite basename_join, (basename_noslash name) by assumption. }
  split; [|split; vm_compute; reflexivity].
  intros P dry w. destruct (fst (should_skip_file filepath)) eqn:Hs.
  - now rewrite migrate_file_skip.
  - destruct (open_read P (fs w) filepath) as [c|e] eqn:Hr.
    + now rewrite (migrate_file_ok _ _ _ _ c).
    + now rewrite (migrate_file_error _ _ _ _ e).
Qed.

Lemma skip_decision_witness :
  contains (text "/") (text "my_thread_logger.h") = false
  /\ should_skip_file (text "include/kcenon" ++ text "/" ++ text "my_thread_logger.h")
     = should_skip_file (text "my_thread_logger.h").
Proof.
  split; [vm_compute; reflexivity|].
  apply (skip_decision (text "any.cpp")). vm_compute. reflexivity.
Defined.

(** * Further properties of the tool *)

(** ** Text without the legacy qualifier *)

Lemma contains_cons_false w a r :
  contains w (a :: r) = false ->
  strip_prefix w (a :: r) = None /\ contains w r = false.
Proof.
  intros H. split.
  - destruct (strip_prefix w (a :: r)) as [x|] eqn:E; [|reflexivity].
    apply strip_prefix_Some in E.
    rewrite (proj2 (contains_iff w (a :: r))) in H; [discriminate|].
    exists [], x. now rewrite E.
  - destruct (contains w r) eqn:E; [|reflexivity].
    apply contains_iff in E as (x & y & ->).
    rewrite (proj2 (contains_iff w (a :: x ++ w ++ y))) in H; [discriminate|].
    now exists (a :: x), y.
Qed.

Lemma sub_scan_no_qualifier s : forall b,
  contains legacy_qualifier s = false -> sub_scan b 0 s = s.
Proof.
  induction s as [|a r IH]; intros b H; [reflexivity|].
  apply contains_cons_false in H as [Hp Hr].
  rewrite sub_copy by now apply pattern_None_prefix. now rewrite IH.
Qed.

(** X1. A line that does not contain [log_level::] comes back from
    [migrate_line] as it is, flagged as unchanged. *)
Theorem line_without_qualifier_unchanged (line : str) :
  contains (text "log_level::") line = false ->
  migrate_line line = (line, false).
Proof.
  intros H. unfold migrate_line, pattern_sub.
  rewrite (sub_scan_no_qualifier line [] H).
  now rewrite bool_decide_eq_false_2 by tauto.
Qed.

Lemma line_without_qualifier_unchanged_witness :
  contains (text "log_level::") (text "set(log_level_v2::info); // log_level") = false
  /\ migrate_line (text "set(log_level_v2::info); // log_level")
     = (text "set(log_level_v2::info); // log_level", false).
Proof.
  split; [vm_compute; reflexivity|].
  apply line_without_qualifier_unchanged. vm_compute. reflexivity.
Defined.

Lemma join_nl_substring ls : forall l,
  In l ls -> exists a b, join_nl ls = a ++ l ++ b.
Proof.
  induction ls as [|l0 ls IH]; intros l Hl; [destruct Hl|].
  destruct ls as [|l1 ls].
  - destruct Hl as [<-|[]]. exists [], []. cbn. now rewrite app_nil_r.
  - change (join_nl (l0 :: l1 :: ls)) with (l0 ++ newline :: join_nl (l1 :: ls)).
    destruct Hl as [<-|Hl].
    + now exists [], (newline :: join_nl (l1 :: ls)).
    + destruct (IH l Hl) as (a & b & ->).
      exists (l0 ++ newline :: a), b. now rewrite <- app_assoc.
Qed.

Lemma split_nl_substring c l :
  In l (split_nl c) -> exists a b, c = a ++ l ++ b.
Proof.
  intros Hl. destruct (join_nl_substring _ _ Hl) as (a & b & E).
  rewrite join_split in E. eauto.
Qed.

Lemma contains_substring w l a b : contains w l = true -> contains w (a ++ l ++ b) = true.
Proof.
  intros (x & y & ->)%contains_iff. apply contains_iff.
  exists (a ++ x), (y ++ b). now rewrite <- !app_assoc.
Qed.

Lemma lines_without_qualifier c :
  contains legacy_qualifier c = false -> map pattern_sub (split_nl c) = split_nl c.
Proof.
  intros H. apply map_fixed_Forall, List.Forall_forall. intros l Hl.
  apply sub_scan_no_qualifier.
  destruct (contains legacy_qualifier l) eqn:E; [|reflexivity].
  destruct (split_nl_substring c l Hl) as (a & b & Hc).
  rewrite Hc, (contains_substring _ _ a b E) in H. discriminate.
Qed.

(** X2. A file whose content does not contain [log_level::] is returned
    unchanged with no change recorded, also when it uses [log_level_v2::]
    and has no declaration of [log_level.h]. *)
Theorem content_without_qualifier_unchanged (content : str) :
  contains (text "log_level::") content = false ->
  migrate_text content = (content, []).
Proof.
  intros H. apply lines_without_qualifier in H.
  pose proof (proj2 (migrate_lines_unchanged 0 (split_nl content)) H) as Hch.
  assert (Hs : snd (migrate_text content) = []).
  { rewrite migrate_text_unfold. exact Hch. }
  pose proof (migrate_text_unchanged content Hs) as Hf.
  destruct (migrate_text content). cbn [fst snd] in *. congruence.
Qed.

Lemma content_without_qualifier_unchanged_witness :
  contains (text "log_level::") (text "auto lvl = log_level_v2::warn;") = false
  /\ migrate_text (text "auto lvl = log_level_v2::warn;")
     = (text "auto lvl = log_level_v2::warn;", []).
Proof.
  split; [vm_compute; reflexivity|].
  apply content_without_qualifier_unchanged. vm_compute. reflexivity.
Defined.

(** ** Recognised occurrences always count *)

Lemma replace_match_grows g :
  In g levels ->
  length (legacy_qualifier ++ g) <= length (replace_match g)
  /\ replace_match g <> legacy_qualifier ++ g.
Proof. intros Hg. each_level Hg; vm_compute; split; (lia || discriminate). Qed.

Lemma sub_scan_length n : forall s b,
  length s <= n -> length s <= length (sub_scan b 0 s).
Proof.
  induction n as [|n IH]; intros s b Hn.
  { destruct s; [cbn; lia|simpl in Hn; lia]. }
  destruct s as [|a r]; [cbn; lia|].
  destruct (sub_cases b a r) as [[_ ->]|(g & r' & E & Hg & _ & _ & ->)].
  - cbn [length]. specialize (IH r (a :: b)). simpl in Hn. lia.
  - destruct (replace_match_grows g Hg) as [Hl _].
    apply (f_equal (@length ascii)) in E.
    rewrite app_assoc, (length_app _ r') in E.
    specialize (IH r' (rev (legacy_qualifier ++ g) ++ b)).
    assert (1 <= length (legacy_qualifier ++ g)).
    { rewrite length_app. change (length legacy_qualifier) with 11. lia. }
    rewrite E, (length_app (replace_match g)). lia.
Qed.

(** X3. A line with an occurrence the pattern recognises is always flagged
    as changed. *)
Theorem occurrence_changes_line (p k v q : str) :
  In (k, v) LEVEL_MAPPINGS ->
  hd_word (rev p) = false ->
  ends_with (text "_v2::") p = false ->
  hd_word q = false ->
  snd (migrate_line (p ++ text "log_level::" ++ k ++ q)) = true.
Proof.
  intros Hkv Hp Hv Hq. destruct (mapping_level k v Hkv) as [Hk _].
  cbn [migrate_line snd]. apply bool_decide_eq_true_2. unfold pattern_sub.
  rewrite (sub_scan_app (length p)); [|lia|assumption|reflexivity].
  rewrite app_nil_r. fold legacy_qualifier.
  rewrite sub_match; [|assumption|now apply ctx_ok_intro|assumption].
  set (rest := sub_scan _ 0 q). intros E.
  pose proof (sub_scan_length (length p) p [] (Nat.le_refl _)) as H1.
  pose proof (sub_scan_length (length q) q (rev (legacy_qualifier ++ k) ++ rev p)
                (Nat.le_refl _)) as H3. fold rest in H3.
  destruct (replace_match_grows k Hk) as [H2 Hne].
  pose proof (f_equal (@length ascii) E) as El.
  rewrite !length_app in El. rewrite length_app in H2.
  apply app_inj_1 in E as [_ E]; [|lia].
  rewrite app_assoc in E. apply app_inj_1 in E as [E _]; [|rewrite length_app; lia].
  contradiction.
Qed.

Lemma occurrence_changes_line_witness :
  snd (migrate_line (text "f(" ++ text "log_level::" ++ text "warning" ++ text ")")) = true.
Proof.
  apply (occurrence_changes_line (text "f(") (text "warning") (text "warn") (text ")")).
  - unfold LEVEL_MAPPINGS. simpl. tauto.
  - reflexivity.
  - reflexivity.
  - reflexivity.
Defined.

(** ** A change brings the new qualifier *)

Lemma contains_cons w a s : contains w s = true -> contains w (a :: s) = true.
Proof.
  intros (x & y & ->)%contains_iff. apply contains_iff. now exists (a :: x), y.
Qed.

Lemma sub_scan_changed_qualifier n : forall s b,
  length s <= n -> sub_scan b 0 s <> s ->
  contains new_qualifier (sub_scan b 0 s) = true.
Proof.
  induction n as [|n IH]; intros s b Hn Hne.
  { destruct s; [now contradiction Hne|simpl in Hn; lia]. }
  destruct s as [|a r]; [now contradiction Hne|].
  destruct (sub_cases b a r) as [[_ E]|(g & r' & _ & _ & _ & _ & E)];
    rewrite E in Hne |- *.
  - apply contains_cons, IH; [simpl in Hn; lia|]. congruence.
  - destruct (replace_match_qualified g) as [v ->].
    apply contains_iff. exists [], (v ++ sub_scan (rev (legacy_qualifier ++ g) ++ b) 0 r').
    now rewrite <- app_assoc.
Qed.

Lemma changed_content_qualified (content : str) :
  is_empty (snd (migrate_text content)) = false ->
  contains (text "log_level_v2::") (join_nl (rewritten_lines content)) = true.
Proof.
  rewrite migrate_text_unfold. cbn [snd]. intros Hch.
  assert (Hne : map pattern_sub (split_nl content) <> split_nl content).
  { intros E. apply migrate_lines_unchanged with (i := 0) in E.
    rewrite E in Hch. discriminate. }
  rewrite map_fixed_Forall in Hne.
  apply not_Forall_Exists in Hne; [|intros x; apply _].
  apply List.Exists_exists in Hne as (line & Hin & Hline). cbn in Hline.
  assert (Hq : contains new_qualifier (pattern_sub line) = true).
  { apply (sub_scan_changed_qualifier (length line)); [lia|exact Hline]. }
  destruct (join_nl_substring (rewritten_lines content) (pattern_sub line))
    as (a & b & ->).
  { unfold rewritten_lines. now apply in_map. }
  now apply contains_substring.
Qed.

(** X4. Whenever the rewrite of a file records a change, the rewritten
    content contains [log_level_v2::]: a changed file always reaches the
    test for the declaration of [log_level.h]. *)
Theorem change_brings_new_qualifier (content : str) :
  is_empty (snd (migrate_text content)) = false ->
  contains (text "log_level_v2::") (join_nl (rewritten_lines content)) = true.
Proof. apply changed_content_qualified. Qed.

Lemma change_brings_new_qualifier_witness :
  is_empty (snd (migrate_text warning_scenario)) = false
  /\ contains (text "log_level_v2::") (join_nl (rewritten_lines warning_scenario)) = true.
Proof.
  split; [vm_compute; reflexivity|].
  apply change_brings_new_qualifier. vm_compute. reflexivity.
Defined.

(** ** Lines of the migrated content *)

(** X5. The migrated content has the lines of the original, one for one,
    and one more exactly when the declaration is injected, that is, when a
    change was recorded and the rewritten content needs the declaration. *)
Theorem line_count_after_migration (content : str) :
  length (split_nl (fst (migrate_text content)))
  = length (split_nl content)
    + (if negb (is_empty (snd (migrate_text content)))
          && needs_include_update (join_nl (rewritten_lines content))
       then 1 else 0).
Proof.
  rewrite migrate_text_unfold. cbn [fst snd].
  pose proof (rewritten_lines_nonempty content) as Hne.
  pose proof (rewritten_lines_nl_free content) as Hf.
  assert (Hlen : length (rewritten_lines content) = length (split_nl content)).
  { unfold rewritten_lines. apply length_map. }
  destruct (negb _ && needs_include_update _) eqn:Hc.
  - apply andb_prop in Hc as [_ Hn]. unfold needs_include_update in Hn.
    destruct (contains (text "log_level_v2::") _); [|discriminate].
    destruct (re_search log_level_include_re _) eqn:Hre; [discriminate|].
    rewrite add_include_lines by assumption.
    destruct (contains include_line _) eqn:Hin.
    { apply declared_if_present in Hin. congruence. }
    rewrite split_join.
    + rewrite list_insert_at_length. lia.
    + apply list_insert_at_nonempty.
    + apply list_insert_at_Forall; [reflexivity|assumption].
  - rewrite split_join by assumption. lia.
Qed.

(** ** The list of changes *)

Lemma migrate_lines_changes ls : forall i n old new,
  In (n, old, new) (snd (migrate_lines i ls)) <->
  exists j line, n = S (i + j) /\ ls !! j = Some line
    /\ pattern_sub line <> line
    /\ old = strip line /\ new = strip (pattern_sub line).
Proof.
  induction ls as [|l ls IH]; intros i n old new.
  - cbn. split; [tauto|]. intros (j & line & _ & H & _). discriminate.
  - cbn [migrate_lines migrate_line]. specialize (IH (S i) n old new).
    destruct (migrate_lines (S i) ls) as [nl chs]. cbn [snd] in *.
    assert (Hrest : In (n, old, new) chs <->
      exists j line, n = S (i + S j) /\ (l :: ls) !! S j = Some line
        /\ pattern_sub line <> line
        /\ old = strip line /\ new = strip (pattern_sub line)).
    { rewrite IH. split; intros (j & line & Hn & H); exists j, line;
        (split; [lia|exact H]). }
    destruct (bool_decide_reflect (pattern_sub l <> l)) as [Hne|He]; cbn [snd In].
    + rewrite Hrest. split.
      * intros [[= <- <- <-]|(j & line & H)].
        -- exists 0, l. rewrite Nat.add_0_r. now repeat split.
        -- exists (S j), line. exact H.
      * intros ([|j] & line & Hn & Hl & H).
        -- left. injection Hl as <-. destruct H as (_ & -> & ->).
           rewrite Nat.add_0_r in Hn. now subst.
        -- right. now exists j, line.
    + rewrite Hrest. split.
      * intros (j & line & H). now exists (S j), line.
      * intros ([|j] & line & Hn & Hl & H).
        -- injection Hl as <-. destruct H as (H & _). contradiction.
        -- now exists j, line.
Qed.

Lemma migrate_lines_sorted ls : forall i,
  StronglySorted lt (map (fun ch : change => fst (fst ch)) (snd (migrate_lines i ls))).
Proof.
  induction ls as [|l ls IH]; intros i; [constructor|].
  cbn [migrate_lines migrate_line]. specialize (IH (S i)).
  pose proof (fun n old new => proj1 (migrate_lines_changes ls (S i) n old new)) as Hin.
  destruct (migrate_lines (S i) ls) as [nl chs]. cbn [snd] in *.
  destruct (bool_decide (pattern_sub l <> l)); cbn [snd map fst]; [|exact IH].
  constructor; [exact IH|].
  apply List.Forall_forall. intros n Hn.
  apply in_map_iff in Hn as ([[n' old] new] & <- & Hch).
  destruct (Hin _ _ _ Hch) as (j & _ & -> & _). cbn. lia.
Qed.

(** X6. The changes of a file are exactly its changed lines: an entry
    [(n, old, new)] is recorded if and only if line [n], counted from 1,
    differs from its rewrite, and then [old] and [new] are that line and its
    rewrite with the surrounding white space removed; the entries come in
    increasing line order, one per line at most. *)
Theorem changes_describe_lines (content : str) :
  (forall n old new,
     In (n, old, new) (snd (migrate_text content)) <->
     exists line, 1 <= n /\ split_nl content !! (n - 1) = Some line
       /\ pattern_sub line <> line
       /\ old = strip line /\ new = strip (pattern_sub line))
  /\ StronglySorted lt (map (fun ch : change => fst (fst ch)) (snd (migrate_text content))).
Proof.
  rewrite migrate_text_unfold. cbn [snd]. split; [|apply migrate_lines_sorted].
  intros n old new. rewrite migrate_lines_changes. split.
  - intros (j & line & -> & H). exists line. split; [lia|].
    now replace (S (0 + j) - 1) with j by lia.
  - intros (line & Hn & H). exists (n - 1), line. split; [lia|exact H].
Qed.

(** ** Where the declaration goes *)

Lemma scan_includes_keep ls : forall i acc,
  acc <> (-1)%Z ->
  Forall (fun l => re_search thread_include_re l = false) ls ->
  scan_includes i acc ls = acc.
Proof.
  induction ls as [|l ls IH]; intros i acc Hacc Hls; [reflexivity|].
  inversion Hls as [|? ? Hl Hls']; subst. cbn [scan_includes]. rewrite Hl.
  apply Z.eqb_neq in Hacc. rewrite Hacc, andb_false_r. apply IH; [|assumption].
  now apply Z.eqb_neq.
Qed.

Lemma scan_includes_app pre : forall i acc rest,
  scan_includes i acc (pre ++ rest)
  = scan_includes (i + length pre) (scan_includes i acc pre) rest.
Proof.
  induction pre as [|l pre IH]; intros i acc rest.
  - cbn [app length scan_includes]. now rewrite Nat.add_0_r.
  - cbn [app length scan_includes]. rewrite IH. f_equal. lia.
Qed.

Lemma scan_includes_none ls : forall i,
  Forall (fun l => re_search thread_include_re l = false
                   /\ starts_with (text "#include") l = false) ls ->
  scan_includes i (-1) ls = (-1)%Z.
Proof.
  induction ls as [|l ls IH]; intros i Hls; [reflexivity|].
  inversion Hls as [|? ? [Ht Hi] Hls']; subst. cbn [scan_includes].
  rewrite Ht, Hi. cbn [andb]. now apply IH.
Qed.

Lemma scan_guards_none ls : forall i,
  Forall (fun l => starts_with (text "#pragma once") l = false
                   /\ re_match header_guard_re l = false) ls ->
  scan_guards i ls = (-1)%Z.
Proof.
  induction ls as [|l ls IH]; intros i Hls; [reflexivity|].
  inversion Hls as [|? ? [Hp Hg] Hls']; subst. cbn [scan_guards].
  rewrite Hp, Hg. cbn [orb]. now apply IH.
Qed.

Lemma scan_guards_first pre g post : forall i,
  Forall (fun l => starts_with (text "#pragma once") l = false
                   /\ re_match header_guard_re l = false) pre ->
  starts_with (text "#pragma once") g || re_match header_guard_re g = true ->
  scan_guards i (pre ++ g :: post) = (Z.of_nat (i + length pre) + 1)%Z.
Proof.
  induction pre as [|l pre IH]; intros i Hpre Hg.
  - cbn [app scan_guards length]. rewrite Hg. f_equal. lia.
  - inversion Hpre as [|? ? [Hp Hr] Hpre']; subst.
    cbn [app scan_guards length]. rewrite Hp, Hr. cbn [orb].
    rewrite IH by assumption. f_equal. lia.
Qed.

Lemma list_insert_at_app {A} (x : A) pre post :
  list_insert_at (length pre) x (pre ++ post) = pre ++ x :: post.
Proof.
  unfold list_insert_at. now rewrite take_app_length, drop_app_length.
Qed.

Lemma list_insert_after {A} (x y : A) pre post :
  list_insert_at (Z.to_nat (Z.of_nat (length pre) + 1)) x (pre ++ y :: post)
  = pre ++ y :: x :: post.
Proof.
  replace (Z.to_nat (Z.of_nat (length pre) + 1)) with (length (pre ++ [y]))
    by (rewrite length_app; cbn [length]; lia).
  replace (pre ++ y :: post) with ((pre ++ [y]) ++ post) by now rewrite <- app_assoc.
  rewrite list_insert_at_app. now rewrite <- app_assoc.
Qed.

Lemma add_include_at ls :
  ls <> [] -> Forall nl_free ls -> contains include_line (join_nl ls) = false ->
  add_log_level_include (join_nl ls)
  = join_nl (list_insert_at (Z.to_nat (find_insert_index ls)) include_line ls).
Proof. intros Hne Hf Hin. rewrite add_include_lines by assumption. now rewrite Hin. Qed.

(** X7. With includes from [kcenon/thread] in the file, the declaration goes
    right after the last of them, whatever other includes come before or
    after. *)
Theorem after_last_thread_include (pre post : list str) (line : str) :
  Forall nl_free (pre ++ line :: post) ->
  contains include_line (join_nl (pre ++ line :: post)) = false ->
  re_search thread_include_re line = true ->
  Forall (fun l => re_search thread_include_re l = false) post ->
  add_log_level_include (join_nl (pre ++ line :: post))
  = join_nl (pre ++ line :: include_line :: post).
Proof.
  intros Hf Hin Hline Hpost.
  rewrite add_include_at; [|now destruct pre|assumption|assumption].
  f_equal. rewrite <- list_insert_after. do 2 f_equal.
  unfold find_insert_index. rewrite scan_includes_app. cbn [scan_includes Nat.add].
  rewrite Hline, scan_includes_keep; [|lia|assumption].
  destruct (Z.eqb_spec (Z.of_nat (length pre) + 1) (-1)); [lia|reflexivity].
Qed.

Lemma after_last_thread_include_witness :
  add_log_level_include
    (join_nl ([text "#include <kcenon/thread/core/a.h>"; text "#include <vector>"]
              ++ text "#include <kcenon/thread/b.h>"
              :: [text "#include <string>"; text "int x;"]))
  = join_nl ([text "#include <kcenon/thread/core/a.h>"; text "#include <vector>"]
             ++ text "#include <kcenon/thread/b.h>"
             :: include_line :: [text "#include <string>"; text "int x;"]).
Proof.
  apply after_last_thread_include.
  - repeat constructor.
  - vm_compute. reflexivity.
  - vm_compute. reflexivity.
  - repeat constructor.
Defined.

(** X8. With no include in the file, the declaration goes right after the
    first header guard, a line that starts with [#pragma once] or with
    [#ifndef] and a name in [_H]. *)
Theorem after_header_guard (pre post : list str) (guard : str) :
  Forall nl_free (pre ++ guard :: post) ->
  contains include_line (join_nl (pre ++ guard :: post)) = false ->
  Forall (fun l => re_search thread_include_re l = false
                   /\ starts_with (text "#include") l = false)
         (pre ++ guard :: post) ->
  Forall (fun l => starts_with (text "#pragma once") l = false
                   /\ re_match header_guard_re l = false) pre ->
  starts_with (text "#pragma once") guard || re_match header_guard_re guard = true ->
  add_log_level_include (join_nl (pre ++ guard :: post))
  = join_nl (pre ++ guard :: include_line :: post).
Proof.
  intros Hf Hin Hinc Hpre Hg.
  rewrite add_include_at; [|now destruct pre|assumption|assumption].
  f_equal. rewrite <- list_insert_after. do 2 f_equal.
  unfold find_insert_index. rewrite scan_includes_none by assumption.
  cbn [Z.eqb]. rewrite scan_guards_first by assumption. cbn [Nat.add].
  destruct (Z.eqb_spec (Z.of_nat (length pre) + 1) (-1)); [lia|reflexivity].
Qed.

Lemma after_header_guard_witness :
  add_log_level_include
    (join_nl ([text "// logger"] ++ text "#ifndef  LOGGER_H"
              :: [text "#define LOGGER_H"; text "#pragma once"]))
  = join_nl ([text "// logger"] ++ text "#ifndef  LOGGER_H"
             :: include_line :: [text "#define LOGGER_H"; text "#pragma once"]).
Proof.
  apply after_header_guard.
  - repeat constructor.
  - vm_compute. reflexivity.
  - repeat constructor.
  - repeat constructor.
  - vm_compute. reflexivity.
Defined.

(** X9. With no include and no header guard in the file, the declaration
    becomes the first line, before the whole content. *)
Theorem at_top_of_file (content : str) :
  contains include_line content = false ->
  Forall (fun l => re_search thread_include_re l = false
                   /\ starts_with (text "#include") l = false)
         (split_nl content) ->
  Forall (fun l => starts_with (text "#pragma once") l = false
                   /\ re_match header_guard_re l = false)
         (split_nl content) ->
  add_log_level_include content = include_line ++ newline :: content.
Proof.
  intros Hin Hinc Hg. unfold add_log_level_include. rewrite Hin.
  unfold find_insert_index. rewrite scan_includes_none by assumption.
  cbn [Z.eqb]. rewrite scan_guards_none by assumption. cbn [Z.eqb Z.to_nat].
  unfold list_insert_at. rewrite take_0, drop_0. cbn [app].
  pose proof (split_nl_nonempty content) as Hne.
  rewrite <- (join_split content) at 2.
  destruct (split_nl content); [contradiction|reflexivity].
Qed.

Lemma at_top_of_file_witness :
  add_log_level_include (text "auto lvl = log_level_v2::warn;")
  = include_line ++ newline :: text "auto lvl = log_level_v2::warn;".
Proof.
  apply at_top_of_file.
  - vm_compute. reflexivity.
  - repeat constructor.
  - repeat constructor.
Defined.

(** ** The declaration is added once *)

Lemma add_include_present content :
  contains include_line (add_log_level_include content) = true.
Proof.
  unfold add_log_level_include.
  destruct (contains include_line content) eqn:Hin.
  - now rewrite join_split.
  - destruct (join_nl_substring
      (list_insert_at (Z.to_nat (find_insert_index (split_nl content)))
         include_line (split_nl content)) include_line) as (a & b & ->).
    + unfold list_insert_at. apply in_or_app. right. now left.
    + apply contains_iff. eauto.
Qed.

(** X10. [add_log_level_include] returns a content that holds the
    declaration, returns the content as it is when the declaration is already
    there, and so changes nothing when applied a second time. *)
Theorem add_include_once (content : str) :
  contains include_line (add_log_level_include content) = true
  /\ (contains include_line content = true -> add_log_level_include content = content)
  /\ add_log_level_include (add_log_level_include content)
     = add_log_level_include content.
Proof.
  assert (Hsame : forall c, contains include_line c = true ->
                            add_log_level_include c = c).
  { intros c Hc. unfold add_log_level_include. rewrite Hc. apply join_split. }
  split; [apply add_include_present|]. split; [apply Hsame|].
  apply Hsame, add_include_present.
Qed.

Lemma add_include_once_witness :
  contains include_line (join_nl [include_line; text "int x;"]) = true
  /\ add_log_level_include (join_nl [include_line; text "int x;"])
     = join_nl [include_line; text "int x;"].
Proof.
  split; [vm_compute; reflexivity|].
  apply (proj1 (proj2 (add_include_once (join_nl [include_line; text "int x;"])))).
  vm_compute. reflexivity.
Defined.

(** X11. After [add_log_level_include], [needs_include_update] is false: the
    declaration that is inserted is one that the trigger accepts. *)
Theorem injection_settles_trigger (content : str) :
  needs_include_update (add_log_level_include content) = false.
Proof.
  unfold needs_include_update.
  rewrite (declared_if_present _ (add_include_present content)).
  now destruct (contains _ _).
Qed.

(** ** File discovery *)

Lemma str_leb_total a : forall b, str_leb a b = true \/ str_leb b a = true.
Proof.
  induction a as [|x a IH]; intros b; [now left|].
  destruct b as [|y b]; [now right|]. cbn [str_leb].
  destruct (N.ltb_spec (N_of_ascii x) (N_of_ascii y)) as [Hlt|Hge]; [now left|].
  destruct (N.ltb_spec (N_of_ascii y) (N_of_ascii x)) as [Hlt'|Hge']; [now right|].
  assert (E : x = y).
  { rewrite <- (ascii_N_embedding x), <- (ascii_N_embedding y). f_equal. lia. }
  subst y. rewrite Ascii.eqb_refl. apply IH.
Qed.

Lemma insert_sorted_perm x l : Permutation (insert_sorted x l) (x :: l).
Proof.
  induction l as [|y l IH]; cbn [insert_sorted]; [reflexivity|].
  destruct (str_leb x y); [reflexivity|].
  rewrite IH. apply perm_swap.
Qed.

Lemma insert_sorted_Sorted x l :
  Sorted (fun a b => str_leb a b = true) l ->
  Sorted (fun a b => str_leb a b = true) (insert_sorted x l).
Proof.
  induction l as [|y l IH]; intros Hs; cbn [insert_sorted].
  - repeat constructor.
  - destruct (str_leb x y) eqn:E.
    + constructor; [assumption|]. now constructor.
    + inversion Hs as [|? ? Hl Hhd]; subst. constructor; [now apply IH|].
      destruct l as [|z l]; cbn [insert_sorted].
      * constructor. destruct (str_leb_total x y); congruence.
      * destruct (str_leb x z).
        -- constructor. destruct (str_leb_total x y); congruence.
        -- constructor. now inversion Hhd.
Qed.

Lemma sorted_spec l :
  Sorted (fun a b => str_leb a b = true) (sorted l) /\ Permutation (sorted l) l.
Proof.
  induction l as [|x l [IHs IHp]]; cbn [sorted fold_right].
  - split; constructor.
  - split; [now apply insert_sorted_Sorted|].
    rewrite insert_sorted_perm. now constructor.
Qed.

(** X12. For a path that is not a single file, the discovered files are
    exactly the results of the recursive globs for the six supported
    extensions, each as often as the globs return it, in ascending order of
    their path strings. *)
Theorem find_files_directory (P : Platform) (m : gmap str entry) (p : str) :
  path_is_file P m p = false ->
  Sorted (fun a b => str_leb a b = true) (find_files P m p)
  /\ Permutation (find_files P m p)
       (concat (map (fun ext => rglob P m p (text "*" ++ ext)) SUPPORTED_EXTENSIONS)).
Proof. intros Hf. unfold find_files. rewrite Hf. apply sorted_spec. Qed.

Lemma find_files_directory_witness :
  path_is_file flat_platform demo_fs (text "src") = false
  /\ find_files flat_platform demo_fs (text "src")
     = [text "src/a.cpp"; text "src/b.h"; text "src/c.cpp"; text "src/locked.cpp";
        text "src/logger_interface.h"]
  /\ Sorted (fun a b => str_leb a b = true) (find_files flat_platform demo_fs (text "src")).
Proof.
  split; [vm_compute; reflexivity|]. split; [vm_compute; reflexivity|].
  apply (find_files_directory flat_platform demo_fs (text "src")).
  vm_compute. reflexivity.
Defined.

(** X13. Given a single file whose extension is not a supported one, the
    run says that no supported file was found and ends with exit code 0,
    without opening or writing anything. *)
Theorem unsupported_file_ignored (P : Platform) (args : Args) (w : world) :
  path_exists P (fs w) (args_path args) = true ->
  path_is_file P (fs w) (args_path args) = true ->
  ~ In (path_suffix P (args_path args)) SUPPORTED_EXTENSIONS ->
  main P args w
  = (World (fs w)
       (trace w ++ [Stdout (text "No supported files found in: " ++ args_path args
                              ++ [newline])]),
     0%Z).
Proof.
  intros Hex Hfile Hext. unfold main, find_files. rewrite Hex, Hfile. cbn [negb].
  rewrite bool_decide_eq_false_2 by now rewrite list_elem_of_In.
  cbn [is_empty]. unfold print, emit. cbn [fs trace]. now rewrite <- app_assoc.
Qed.

Lemma unsupported_file_ignored_witness :
  main flat_platform readme_args readme_world
  = (World (fs readme_world)
       [Stdout (text "No supported files found in: " ++ text "README.md" ++ [newline])],
     0%Z).
Proof.
  apply (unsupported_file_ignored flat_platform readme_args readme_world).
  - vm_compute. reflexivity.
  - vm_compute. reflexivity.
  - vm_compute. intuition discriminate.
Defined.

(** ** What a turn of the loop writes *)

Lemma extends_refl Q w : extends_with Q w w.
Proof. exists []. now rewrite app_nil_r. Qed.

Lemma extends_trans Q w1 w2 w3 :
  extends_with Q w1 w2 -> extends_with Q w2 w3 -> extends_with Q w1 w3.
Proof.
  intros (n1 & E1 & F1) (n2 & E2 & F2). exists (n1 ++ n2).
  rewrite E2, E1, <- app_assoc. split; [reflexivity|]. now apply Forall_app.
Qed.

Lemma extends_weaken (Q Q' : event -> Prop) w w' :
  (forall e, Q e -> Q' e) -> extends_with Q w w' -> extends_with Q' w w'.
Proof.
  intros H (new & E & F). exists new. split; [assumption|].
  eapply Forall_impl; eassumption.
Qed.

Lemma extends_emit (Q : event -> Prop) e w : Q e -> extends_with Q w (emit e w).
Proof. intros He. exists [e]. split; [reflexivity|]. now repeat constructor. Qed.

Lemma extends_fold {A} Q (f : world -> A -> world) l :
  (forall w x, extends_with Q w (f w x)) -> forall w, extends_with Q w (fold_left f l w).
Proof.
  intros Hf. induction l as [|x l IH]; intros w; [apply extends_refl|].
  cbn [fold_left]. eapply extends_trans; [apply Hf|apply IH].
Qed.

Lemma print_diff_line_eq w line :
  print_diff_line w line = emit (Stdout (diff_line_text line)) w.
Proof.
  unfold print_diff_line, diff_line_text.
  destruct (_ && _); [reflexivity|]. now destruct (_ && _).
Qed.

Lemma fold_emit (f : str -> event) ls : forall w,
  fold_left (fun w l => emit (f l) w) ls w = World (fs w) (trace w ++ map f ls).
Proof.
  induction ls as [|l ls IH]; intros w; cbn [fold_left map].
  - rewrite app_nil_r. now destruct w.
  - rewrite IH. cbn [emit fs trace]. now rewrite <- app_assoc.
Qed.

Lemma print_diff_trace P r w :
  print_diff P r w
  = World (fs w)
      (trace w ++
       map (fun l => Stdout (diff_line_text l))
         (if is_empty (changes r)
             && bool_decide (original_content r = new_content r)
          then []
          else unified_diff P
                 (splitlines_keepends P (original_content r))
                 (splitlines_keepends P (new_content r))
                 (text "a/" ++ path r) (text "b/" ++ path r))).
Proof.
  unfold print_diff. destruct (_ && _).
  - cbn [map]. rewrite app_nil_r. now destruct w.
  - rewrite <- fold_emit. generalize w.
    induction (unified_diff P _ _ _ _) as [|l ls IH]; intros w0; [reflexivity|].
    cbn [fold_left]. now rewrite print_diff_line_eq, IH.
Qed.

(** X14. [print_diff] is a view: it leaves the file system alone and only
    prints, nothing at all when the result has no change and equal contents,
    and otherwise every line of the unified diff once and in order, added
    lines in green, removed lines in red, the [+++] and [---] headers and
    the rest plain. *)
Theorem print_diff_output (P : Platform) (r : MigrationResult) (w : world) :
  fs (print_diff P r w) = fs w
  /\ trace (print_diff P r w)
     = trace w ++
       map (fun l => Stdout (diff_line_text l))
         (if is_empty (changes r)
             && bool_decide (original_content r = new_content r)
          then []
          else unified_diff P
                 (splitlines_keepends P (original_content r))
                 (splitlines_keepends P (new_content r))
                 (text "a/" ++ path r) (text "b/" ++ path r)).
Proof. rewrite print_diff_trace. split; reflexivity. Qed.

Lemma out_print s w : extends_with is_output w (print s w).
Proof. now apply extends_emit. Qed.

Lemma out_print_err s w : extends_with is_output w (print_err s w).
Proof. now apply extends_emit. Qed.

Lemma out_print_diff P r w : extends_with is_output w (print_diff P r w).
Proof.
  rewrite print_diff_trace. eexists. split; [reflexivity|].
  apply Forall_map, List.Forall_forall. now intros.
Qed.

Lemma out_print_change w ch : extends_with is_output w (print_change w ch).
Proof.
  destruct ch as [[i old] new]. cbn [print_change].
  eapply extends_trans; [|apply out_print].
  eapply extends_trans; [|apply out_print]. apply out_print.
Qed.

Lemma out_report P (by_diff listing : bool) r chs title w :
  extends_with is_output w
    (if by_diff then print [] (print_diff P r w)
     else if listing then fold_left print_change chs (print title w)
     else w).
Proof.
  destruct by_diff.
  - eapply extends_trans; [apply out_print_diff|apply out_print].
  - destruct listing; [|apply extends_refl].
    eapply extends_trans; [apply out_print|].
    apply extends_fold. apply out_print_change.
Qed.

Lemma out_print_summary args files n w :
  extends_with is_output w (print_summary args files (n, w)).
Proof.
  unfold print_summary.
  repeat first
    [ apply extends_refl
    | match goal with |- extends_with _ _ (if ?c then _ else _) => destruct c end
    | eapply extends_trans; [|apply out_print] ].
Qed.

Lemma output_ok args files e : is_output e -> run_event_ok args files e.
Proof. now destruct e. Qed.

Lemma process_file_events P args files n w p :
  In p files ->
  extends_with (run_event_ok args files) w (snd (process_file P args (n, w) p)).
Proof.
  intros Hin.
  assert (Hout : forall w1 w2, extends_with is_output w1 w2 ->
                               extends_with (run_event_ok args files) w1 w2).
  { intros w1 w2. apply extends_weaken, output_ok. }
  destruct (fst (should_skip_file p)) eqn:Hs.
  { rewrite process_file_skip by assumption. cbn [snd]. apply Hout.
    destruct (args_verbose args); [apply out_print|apply extends_refl]. }
  assert (Hopen : extends_with (run_event_ok args files) w (emit (Opened p) w)).
  { apply extends_emit. now split. }
  destruct (open_read P (fs w) p) as [c|e] eqn:Hr.
  2:{ rewrite (process_file_error _ _ _ _ _ e) by assumption. cbn [snd].
      eapply extends_trans; [apply Hopen|]. apply Hout, out_print_err. }
  unfold process_file. rewrite (migrate_file_ok _ _ _ _ c) by assumption.
  cbn [error skipped changes new_content].
  eapply extends_trans; [apply Hopen|].
  destruct (is_empty (snd (migrate_text c))); cbn [snd].
  - apply Hout. destruct (args_verbose args); [apply out_print|apply extends_refl].
  - destruct (args_dry_run args) eqn:Hdry; [apply Hout, out_report|].
    destruct (args_backup args) eqn:Hbak.
    + eapply extends_trans; [apply Hout, out_report|].
      exists [Copied p (p ++ text ".bak"); Wrote p (fst (migrate_text c))].
      cbn [write_file copy_file trace]. rewrite <- app_assoc.
      split; [reflexivity|]. repeat constructor; assumption.
    + eapply extends_trans; [apply Hout, out_report|].
      exists [Wrote p (fst (migrate_text c))].
      split; [reflexivity|]. repeat constructor; assumption.
Qed.

Lemma process_files_events P args files l : forall st,
  incl l files ->
  extends_with (run_event_ok args files) (snd st) (snd (process_files P args l st)).
Proof.
  unfold process_files.
  induction l as [|p l IH]; intros st Hl; [apply extends_refl|].
  cbn [fold_left]. eapply extends_trans; [|apply IH].
  - destruct st as [n w]. apply process_file_events. apply Hl. now left.
  - intros q Hq. apply Hl. now right.
Qed.

(** X15. A run only touches what it discovered: every file it opens or
    writes is a discovered file that the skip filter lets through, it writes
    only without [--dry-run], and every copy is made with [--backup] and
    without [--dry-run], from such a file to the same path with [.bak]
    appended. *)
Theorem run_touches_only_discovered (P : Platform) (args : Args) (w : world) :
  exists new,
    trace (fst (main P args w)) = trace w ++ new
    /\ Forall (run_event_ok args (find_files P (fs w) (args_path args))) new.
Proof.
  change (extends_with (run_event_ok args (find_files P (fs w) (args_path args)))
            w (fst (main P args w))).
  set (files := find_files P (fs w) (args_path args)).
  assert (Hout : forall w1 w2, extends_with is_output w1 w2 ->
                               extends_with (run_event_ok args files) w1 w2).
  { intros w1 w2. apply extends_weaken, output_ok. }
  unfold main. fold files. destruct (negb _); cbn [fst]; [apply Hout, out_print_err|].
  destruct (is_empty files); cbn [fst]; [apply Hout, out_print|].
  set (w1 := if args_verbose args then _ else w).
  assert (H1 : extends_with (run_event_ok args files) w w1).
  { subst w1. apply Hout.
    destruct (args_verbose args); [apply out_print|apply extends_refl]. }
  pose proof (process_files_events P args files files (Counters 0 0 0, w1)
                (incl_refl _)) as H2.
  destruct (process_files P args files _) as [n2 w2]. cbn [snd] in H2.
  eapply extends_trans; [apply H1|].
  eapply extends_trans; [apply H2|]. apply Hout, out_print_summary.
Qed.

(** ** Writing back *)

Lemma open_read_inl P m p c : open_read P m p = inl c <-> m !! p = Some (Readable c).
Proof.
  unfold open_read. destruct (m !! p) as [[c'|e]|]; split; congruence.
Qed.

Lemma bak_differs (p : str) : p ++ text ".bak" <> p.
Proof.
  intros E. apply (f_equal (@length ascii)) in E. rewrite length_app in E.
  cbn in E. lia.
Qed.

Lemma process_file_changed P args n w p c :
  fst (should_skip_file p) = false ->
  open_read P (fs w) p = inl c ->
  is_empty (snd (migrate_text c)) = false ->
  args_dry_run args = false ->
  exists wr, fs wr = fs w
    /\ process_file P args (n, w) p
       = (Counters (total_changes n + length (snd (migrate_text c)))
                   (S (files_changed n)) (files_skipped n),
          write_file p (fst (migrate_text c))
            (if args_backup args then copy_file p (p ++ text ".bak") wr else wr)).
Proof.
  intros Hs Hr Hch Hdry. unfold process_file.
  rewrite (migrate_file_ok _ _ _ _ c) by assumption.
  cbn [error skipped changes new_content]. rewrite Hch, Hdry.
  eexists. split; [|reflexivity].
  match goal with |- fs ?wr = _ =>
    match wr with
    | if ?b1 then _ else if ?b2 then fold_left _ ?chs (print ?t ?w0) else _ =>
        destruct (quiet_report P b1 b2
                    {| path := p; original_content := c;
                       new_content := fst (migrate_text c);
                       changes := snd (migrate_text c); skipped := false;
                       skip_reason := []; error := None |} chs t w0) as [Hfs _]
    end
  end.
  rewrite Hfs. reflexivity.
Qed.

Lemma process_file_fixed P args n w p c :
  fst (should_skip_file p) = false ->
  open_read P (fs w) p = inl c ->
  snd (migrate_text c) = [] ->
  fst (process_file P args (n, w) p) = n
  /\ quiet w (snd (process_file P args (n, w) p)).
Proof.
  intros Hs Hr Hch. unfold process_file.
  rewrite (migrate_file_ok _ _ _ _ c) by assumption.
  cbn [error skipped changes new_content]. rewrite Hch. cbn [is_empty fst snd].
  split; [reflexivity|].
  eapply quiet_trans; [apply (quiet_emit (Opened p)); reflexivity|].
  destruct (args_verbose args); [apply quiet_print|apply quiet_refl].
Qed.

(** X16. Without [--dry-run], the turn of the loop on a readable file with
    changes counts the file and its changes, leaves the migrated content at
    the path of the file and, with [--backup], the original content at that
    path with [.bak] appended; no other path is affected. *)
Theorem write_back_and_backup
    (P : Platform) (args : Args) (n : counters) (w : world) (p c : str) :
  fst (should_skip_file p) = false ->
  open_read P (fs w) p = inl c ->
  is_empty (snd (migrate_text c)) = false ->
  args_dry_run args = false ->
  let st := process_file P args (n, w) p in
  fst st = Counters (total_changes n + length (snd (migrate_text c)))
                    (S (files_changed n)) (files_skipped n)
  /\ fs (snd st) !! p = Some (Readable (fst (migrate_text c)))
  /\ fs (snd st) !! (p ++ text ".bak")
     = (if args_backup args then Some (Readable c) else fs w !! (p ++ text ".bak"))
  /\ (forall q, q <> p -> q <> p ++ text ".bak" -> fs (snd st) !! q = fs w !! q).
Proof.
  intros Hs Hr Hch Hdry. cbn zeta.
  destruct (process_file_changed P args n w p c Hs Hr Hch Hdry) as (wr & Hfs & ->).
  apply open_read_inl in Hr. cbn [fst snd write_file fs].
  split; [reflexivity|]. split; [apply lookup_insert_eq|].
  pose proof (bak_differs p) as Hb. split.
  - rewrite lookup_insert_ne by congruence.
    destruct (args_backup args); cbn [copy_file fs]; rewrite Hfs; [|reflexivity].
    rewrite Hr. apply lookup_insert_eq.
  - intros q Hq Hqb. rewrite lookup_insert_ne by congruence.
    destruct (args_backup args); cbn [copy_file fs]; rewrite Hfs; [|reflexivity].
    rewrite Hr. now rewrite lookup_insert_ne by congruence.
Qed.

Lemma write_back_and_backup_witness :
  let st := process_file flat_platform (demo_args false) (Counters 0 0 0, demo_world)
              (text "src/a.cpp") in
  fst st = Counters (0 + length (snd (migrate_text (text "auto lvl = log_level::warning;"))))
                    1 0
  /\ fs (snd st) !! text "src/a.cpp"
     = Some (Readable (fst (migrate_text (text "auto lvl = log_level::warning;"))))
  /\ fs (snd st) !! (text "src/a.cpp" ++ text ".bak")
     = (if args_backup (demo_args false)
        then Some (Readable (text "auto lvl = log_level::warning;"))
        else fs demo_world !! (text "src/a.cpp" ++ text ".bak"))
  /\ (forall q, q <> text "src/a.cpp" -> q <> text "src/a.cpp" ++ text ".bak" ->
                fs (snd st) !! q = fs demo_world !! q).
Proof.
  apply (write_back_and_backup flat_platform (demo_args false) (Counters 0 0 0)
           demo_world (text "src/a.cpp") (text "auto lvl = log_level::warning;"));
    vm_compute; reflexivity.
Defined.

Lemma migrate_text_qualifier_free c :
  contains legacy_qualifier c = false -> migrate_text c = (c, []).
Proof.
  intros H. apply lines_without_qualifier in H.
  pose proof (proj2 (migrate_lines_unchanged 0 (split_nl c)) H) as Hch.
  assert (Hs : snd (migrate_text c) = []).
  { rewrite migrate_text_unfold. exact Hch. }
  pose proof (migrate_text_unchanged c Hs) as Hf.
  destruct (migrate_text c). cbn [fst snd] in *. congruence.
Qed.

(** X17. A readable file whose content does not contain [log_level::] is
    never written or backed up, with any options, and moves no counter. *)
Theorem qualifier_free_file_not_written
    (P : Platform) (args : Args) (n : counters) (w : world) (p c : str) :
  fst (should_skip_file p) = false ->
  open_read P (fs w) p = inl c ->
  contains (text "log_level::") c = false ->
  let st := process_file P args (n, w) p in
  fst st = n
  /\ fs (snd st) = fs w
  /\ List.filter is_write (trace (snd st)) = List.filter is_write (trace w).
Proof.
  intros Hs Hr Hc. cbn zeta. apply migrate_text_qualifier_free in Hc.
  apply (process_file_fixed P args n w p c Hs Hr). now rewrite Hc.
Qed.

Lemma qualifier_free_file_not_written_witness :
  let st := process_file flat_platform (demo_args false) (Counters 0 0 0, demo_world)
              (text "src/c.cpp") in
  fst st = Counters 0 0 0
  /\ fs (snd st) = fs demo_world
  /\ List.filter is_write (trace (snd st)) = List.filter is_write (trace demo_world).
Proof.
  apply (qualifier_free_file_not_written flat_platform (demo_args false)
           (Counters 0 0 0) demo_world (text "src/c.cpp") (text "int x = 0;"));
    vm_compute; reflexivity.
Defined.

(** X18. A second turn on a file that a turn without [--dry-run] has just
    processed finds nothing to do: with any options it moves no counter and
    writes nothing. *)
Theorem rerun_leaves_file_alone
    (P : Platform) (args args2 : Args) (n : counters) (w : world) (p c : str) :
  fst (should_skip_file p) = false ->
  open_read P (fs w) p = inl c ->
  args_dry_run args = false ->
  let st1 := process_file P args (n, w) p in
  let st2 := process_file P args2 st1 p in
  fst st2 = fst st1
  /\ fs (snd st2) = fs (snd st1)
  /\ List.filter is_write (trace (snd st2)) = List.filter is_write (trace (snd st1)).
Proof.
  intros Hs Hr Hdry. cbn zeta.
  destruct (is_empty (snd (migrate_text c))) eqn:Hch.
  - assert (Hnil : snd (migrate_text c) = []) by now destruct (snd (migrate_text c)).
    destruct (process_file_fixed P args n w p c Hs Hr Hnil) as [Hn [Hfs _]].
    destruct (process_file P args (n, w) p) as [n1 w1]. cbn [fst snd] in *.
    apply (process_file_fixed P args2 n1 w1 p c Hs); [now rewrite Hfs|assumption].
  - destruct (process_file_changed P args n w p c Hs Hr Hch Hdry) as (wr & _ & ->).
    cbn [fst snd].
    apply (process_file_fixed P args2 _ _ p (fst (migrate_text c)) Hs).
    + apply open_read_inl. cbn [write_file fs]. apply lookup_insert_eq.
    + destruct (migrate_text_lines c) as (ls & -> & Hne & Hf & Hfix & _).
      now rewrite migrate_text_fixed.
Qed.

Lemma rerun_leaves_file_alone_witness :
  let st1 := process_file flat_platform (demo_args false) (Counters 0 0 0, demo_world)
               (text "src/b.h") in
  let st2 := process_file flat_platform (demo_args false) st1 (text "src/b.h") in
  fst st2 = fst st1
  /\ fs (snd st2) = fs (snd st1)
  /\ List.filter is_write (trace (snd st2)) = List.filter is_write (trace (snd st1)).
Proof.
  apply (rerun_leaves_file_alone flat_platform (demo_args false) (demo_args false)
           (Counters 0 0 0) demo_world (text "src/b.h")
           (text "set(log_level::info); set(log_level::error);"));
    vm_compute; reflexivity.
Defined.

(** ** The counters of a run *)

Lemma process_file_count P args n w p :
  let n' := fst (process_file P args (n, w) p) in
  files_skipped n' = files_skipped n + (if fst (should_skip_file p) then 1 else 0)
  /\ files_changed n <= files_changed n'
  /\ files_changed n' <= files_changed n + (if fst (should_skip_file p) then 0 else 1)
  /\ total_changes n + (files_changed n' - files_changed n) <= total_changes n'.
Proof.
  cbn zeta. destruct (fst (should_skip_file p)) eqn:Hs.
  { rewrite process_file_skip by assumption. cbn. lia. }
  destruct (open_read P (fs w) p) as [c|e] eqn:Hr.
  2:{ rewrite (process_file_error _ _ _ _ _ e) by assumption. cbn. lia. }
  unfold process_file. rewrite (migrate_file_ok _ _ _ _ c) by assumption.
  cbn [error skipped changes new_content].
  destruct (snd (migrate_text c)) as [|ch chs]; cbn; lia.
Qed.

Lemma process_files_count P args l : forall n w,
  let n' := fst (process_files P args l (n, w)) in
  files_skipped n'
  = files_skipped n + length (List.filter (fun p => fst (should_skip_file p)) l)
  /\ files_changed n <= files_changed n'
  /\ files_changed n' + length (List.filter (fun p => fst (should_skip_file p)) l)
     <= files_changed n + length l
  /\ total_changes n + (files_changed n' - files_changed n) <= total_changes n'.
Proof.
  unfold process_files. induction l as [|p l IH]; intros n w; cbn zeta.
  { cbn. lia. }
  cbn [fold_left List.filter length].
  pose proof (process_file_count P args n w p) as Hstep. cbn zeta in Hstep.
  destruct (process_file P args (n, w) p) as [n1 w1]. cbn [fst] in Hstep.
  specialize (IH n1 w1). cbn zeta in IH.
  destruct (fst (should_skip_file p)); cbn [length]; lia.
Qed.

(** X19. At the end of the loop the skipped counter is the number of
    discovered files whose name matches a skip pattern, the changed and
    skipped files together are no more than the discovered files, and there
    is at least one recorded change for every changed file. *)
Theorem run_counters (P : Platform) (args : Args) (files : list str) (w : world) :
  let n := fst (process_files P args files (Counters 0 0 0, w)) in
  files_skipped n = length (List.filter (fun p => fst (should_skip_file p)) files)
  /\ files_changed n + files_skipped n <= length files
  /\ files_changed n <= total_changes n.
Proof.
  pose proof (process_files_count P args files (Counters 0 0 0) w) as H.
  cbn zeta in *. cbn [files_skipped files_changed total_changes] in H. lia.
Qed.

(** ** The migrated content declares what it uses *)

(** X20. When a change was recorded, the migrated content holds a
    declaration of [log_level.h] that the trigger recognises, so that
    [needs_include_update] is false on it. *)
Theorem migrated_content_declared (content : str) :
  is_empty (snd (migrate_text content)) = false ->
  re_search log_level_include_re (fst (migrate_text content)) = true
  /\ needs_include_update (fst (migrate_text content)) = false.
Proof.
  intros Hch. pose proof (changed_content_qualified content Hch) as Hq.
  rewrite migrate_text_unfold in Hch |- *. cbn [fst snd] in Hch |- *.
  rewrite Hch. cbn [negb andb].
  destruct (needs_include_update (join_nl (rewritten_lines content))) eqn:Hn.
  - pose proof (add_include_present (join_nl (rewritten_lines content))) as Hin.
    apply declared_if_present in Hin. split; [exact Hin|].
    unfold needs_include_update. rewrite Hin.
    now destruct (contains (text "log_level_v2::") (add_log_level_include _)).
  - split; [|exact Hn]. unfold needs_include_update in Hn. rewrite Hq in Hn.
    now destruct (re_search log_level_include_re _).
Qed.

Lemma migrated_content_declared_witness :
  is_empty (snd (migrate_text two_includes)) = false
  /\ re_search log_level_include_re (fst (migrate_text two_includes)) = true
  /\ needs_include_update (fst (migrate_text two_includes)) = false.
Proof.
  split; [vm_compute; reflexivity|].
  apply migrated_content_declared. vm_compute. reflexivity.
Defined.

(** ** Occurrences behind a version marker *)

(** X21. An occurrence [log_level::k] that stands right after [_v2::] is
    copied as it is, for every legacy key [k]; the text before it and after
    it is rewritten on its own. *)
Theorem guarded_occurrence_kept (p k q : str) :
  In k levels ->
  ends_with (text "_v2::") p = true ->
  fst (migrate_line (p ++ text "log_level::" ++ k ++ q))
  = fst (migrate_line p) ++ text "log_level::" ++ k
      ++ sub_scan (rev (p ++ text "log_level::" ++ k)) 0 q.
Proof.
  intros Hk Hp. cbn [migrate_line fst]. unfold pattern_sub.
  assert (Hm : starts_with version_marker (rev p) = true) by exact Hp.
  assert (Hw : hd_word (rev p) = false).
  { apply starts_with_true in Hm as [r ->]. reflexivity. }
  rewrite (sub_scan_app (length p)); [|lia|assumption|reflexivity].
  rewrite app_nil_r. f_equal.
  assert (Hc : ctx_ok (rev p) = false).
  { rewrite ctx_ok_look. unfold look. cbn [fst snd]. now rewrite Hm. }
  rewrite !rev_app_distr, <- !app_assoc.
  generalize dependent (rev p). intros b Hm Hw Hc.
  each_level Hk; eval_texts; cbn [app];
    (rewrite sub_copy by now apply pattern_None_ctx);
    repeat copy_step; reflexivity.
Qed.

Lemma guarded_occurrence_kept_witness :
  fst (migrate_line (text "x_v2::" ++ text "log_level::" ++ text "trace" ++ text ";"))
  = fst (migrate_line (text "x_v2::")) ++ text "log_level::" ++ text "trace"
      ++ sub_scan (rev (text "x_v2::" ++ text "log_level::" ++ text "trace")) 0 (text ";").
Proof.
  apply (guarded_occurrence_kept (text "x_v2::") (text "trace") (text ";")).
  - unfold levels. simpl. tauto.
  - reflexivity.
Defined.

(** ** A file that cannot be read *)

Lemma finish_same (dry bak : bool) (p new : str) (w w' : world) :
  fs w = fs w' ->
  fs (if dry then w
      else write_file p new (if bak then copy_file p (p ++ text ".bak") w else w))
  = fs (if dry then w'
        else write_file p new (if bak then copy_file p (p ++ text ".bak") w' else w')).
Proof.
  intros H. destruct dry; [assumption|].
  destruct bak; cbn [write_file copy_file fs]; now rewrite H.
Qed.

(** The counters and the file system after a turn depend on the counters and
    the file system before it, not on what was printed so far. *)
Lemma process_file_same P args n w w' p :
  fs w = fs w' ->
  fst (process_file P args (n, w) p) = fst (process_file P args (n, w') p)
  /\ fs (snd (process_file P args (n, w) p))
     = fs (snd (process_file P args (n, w') p)).
Proof.
  intros Hfs. destruct (fst (should_skip_file p)) eqn:Hs.
  { rewrite !process_file_skip by assumption. cbn [fst snd].
    split; [reflexivity|]. now destruct (args_verbose args). }
  destruct (open_read P (fs w) p) as [c|e] eqn:Hr.
  2:{ rewrite !(process_file_error _ _ _ _ _ e) by congruence. now split. }
  unfold process_file. rewrite !(migrate_file_ok _ _ _ _ c) by congruence.
  cbn [error skipped changes new_content].
  destruct (is_empty (snd (migrate_text c))); cbn [fst snd].
  { split; [reflexivity|]. now destruct (args_verbose args). }
  split; [reflexivity|]. apply finish_same.
  etransitivity; [apply (proj1 (quiet_report P _ _ _ _ _ _))|].
  symmetry. etransitivity; [apply (proj1 (quiet_report P _ _ _ _ _ _))|].
  cbn [emit fs]. now symmetry.
Qed.

Lemma process_files_same P args l : forall n w w',
  fs w = fs w' ->
  fst (process_files P args l (n, w)) = fst (process_files P args l (n, w'))
  /\ fs (snd (process_files P args l (n, w)))
     = fs (snd (process_files P args l (n, w'))).
Proof.
  unfold process_files. induction l as [|p l IH]; intros n w w' Hfs; [now split|].
  cbn [fold_left].
  destruct (process_file_same P args n w w' p Hfs) as [Hn Hf].
  destruct (process_file P args (n, w) p) as [n1 w1].
  destruct (process_file P args (n, w') p) as [n1' w1'].
  cbn [fst snd] in Hn, Hf. subst n1'. now apply IH.
Qed.

Lemma process_files_app P args l1 l2 st :
  process_files P args (l1 ++ l2) st
  = process_files P args l2 (process_files P args l1 st).
Proof. unfold process_files. apply fold_left_app. Qed.

Lemma process_files_trace P args l st :
  exists new, trace (snd (process_files P args l st)) = trace (snd st) ++ new.
Proof.
  destruct (process_files_events P args l l st (incl_refl _)) as (new & E & _).
  eauto.
Qed.

(** C8. Read-error recovery: in a run whose discovery gives the files
    [pre ++ p :: rest], when the file [p], one that the skip filter lets
    through, cannot be read at its turn, the run opens it, reports the error
    on the error stream and adds nothing else for it: no content is
    rewritten, no change recorded; it then goes on with [rest], prints the
    summary and exits with code 0; the report is in the final trace, and the
    counters and the file system at the end are those of the same run over
    [pre ++ rest], the file [p] left out. *)
Theorem read_error_recovery
    (P : Platform) (args : Args) (w : world) (pre rest : list str) (p e : str) :
  path_exists P (fs w) (args_path args) = true ->
  find_files P (fs w) (args_path args) = pre ++ p :: rest ->
  fst (should_skip_file p) = false ->
  let w0 := if args_verbose args
            then print (text "Found " ++ decimal (length (pre ++ p :: rest))
                          ++ text " file(s) to process") w
            else w in
  let st1 := process_files P args pre (Counters 0 0 0, w0) in
  open_read P (fs (snd st1)) p = inr e ->
  let report := Stderr (text "Error processing " ++ p ++ text ": "
                          ++ text "Failed to read file: " ++ e ++ [newline]) in
  let st2 := (fst st1, World (fs (snd st1)) (trace (snd st1) ++ [Opened p; report])) in
  let r := fst (migrate_file P p (args_dry_run args) (snd st1)) in
  (new_content r = [] /\ changes r = [])
  /\ main P args w
     = (print_summary args (pre ++ p :: rest) (process_files P args rest st2), 0%Z)
  /\ In report (trace (fst (main P args w)))
  /\ fst (process_files P args (pre ++ p :: rest) (Counters 0 0 0, w0))
     = fst (process_files P args (pre ++ rest) (Counters 0 0 0, w0))
  /\ fs (fst (main P args w))
     = fs (snd (process_files P args (pre ++ rest) (Counters 0 0 0, w0))).
Proof.
  intros Hex Hfiles Hs. cbn zeta.
  set (w0 := if args_verbose args then _ else w).
  destruct (process_files P args pre (Counters 0 0 0, w0)) as [n1 w1] eqn:E1.
  cbn [fst snd]. intros Hr.
  set (report := Stderr _).
  set (st2 := (n1, World (fs w1) (trace w1 ++ [Opened p; report]))).
  assert (Hstep : process_file P args (n1, w1) p = st2).
  { rewrite (process_file_error _ _ _ _ _ e) by assumption.
    subst st2 report. unfold print_err, emit. cbn [fs trace].
    do 2 f_equal. rewrite <- !app_assoc. reflexivity. }
  assert (Hall : process_files P args (pre ++ p :: rest) (Counters 0 0 0, w0)
                 = process_files P args rest st2).
  { rewrite process_files_app, E1.
    change (process_files P args (p :: rest) (n1, w1))
      with (process_files P args rest (process_file P args (n1, w1) p)).
    now rewrite Hstep. }
  assert (Hmain : main P args w
                  = (print_summary args (pre ++ p :: rest)
                       (process_files P args rest st2), 0%Z)).
  { assert (Hne : is_empty (pre ++ p :: rest) = false) by now destruct pre.
    unfold main. rewrite Hex, Hfiles, Hne. cbn [negb]. fold w0.
    now rewrite Hall. }
  assert (Hsame : fst (process_files P args rest st2)
                  = fst (process_files P args rest (n1, w1))
                  /\ fs (snd (process_files P args rest st2))
                     = fs (snd (process_files P args rest (n1, w1)))).
  { subst st2. now apply process_files_same. }
  split.
  { rewrite (migrate_file_error _ _ _ _ e) by assumption. now split. }
  split; [exact Hmain|]. split.
  { rewrite Hmain. cbn [fst].
    destruct (process_files_trace P args rest st2) as (new & Hnew).
    destruct (process_files P args rest st2) as [n3 w3] eqn:E3. cbn [snd] in Hnew.
    destruct (out_print_summary args (pre ++ p :: rest) n3 w3) as (new' & -> & _).
    rewrite Hnew. subst st2. cbn [snd trace].
    apply in_or_app. left. apply in_or_app. left. apply in_or_app. right.
    right. now left. }
  split.
  { rewrite Hall, process_files_app, E1. apply Hsame. }
  rewrite Hmain, process_files_app, E1. cbn [fst].
  destruct Hsame as [_ <-].
  destruct (process_files P args rest st2) as [n3 w3]. cbn [snd].
  apply (proj1 (quiet_print_summary args (pre ++ p :: rest) n3 w3)).
Qed.

Lemma read_error_recovery_witness :
  (path_exists flat_platform demo_fs (text "src") = true
   /\ find_files flat_platform demo_fs (text "src")
      = [text "src/a.cpp"; text "src/b.h"; text "src/c.cpp"]
        ++ text "src/locked.cpp" :: [text "src/logger_interface.h"]
   /\ fst (should_skip_file (text "src/locked.cpp")) = false
   /\ open_read flat_platform
        (fs (snd (process_files flat_platform (demo_args false)
                    [text "src/a.cpp"; text "src/b.h"; text "src/c.cpp"]
                    (Counters 0 0 0, demo_world))))
        (text "src/locked.cpp")
      = inr (text "[Errno 13] Permission denied: 'src/locked.cpp'"))
  /\ In (Stderr (text "Error processing " ++ text "src/locked.cpp" ++ text ": "
                   ++ text "Failed to read file: "
                   ++ text "[Errno 13] Permission denied: 'src/locked.cpp'"
                   ++ [newline]))
        (trace (fst (main flat_platform (demo_args false) demo_world)))
  /\ snd (main flat_platform (demo_args false) demo_world) = 0%Z
  /\ fst (process_files flat_platform (demo_args false)
            ([text "src/a.cpp"; text "src/b.h"; text "src/c.cpp"]
             ++ text "src/locked.cpp" :: [text "src/logger_interface.h"])
            (Counters 0 0 0, demo_world))
     = fst (process_files flat_platform (demo_args false)
              ([text "src/a.cpp"; text "src/b.h"; text "src/c.cpp"]
               ++ [text "src/logger_interface.h"])
              (Counters 0 0 0, demo_world)).
Proof.
  split; [repeat split; vm_compute; reflexivity|].
  destruct (read_error_recovery flat_platform (demo_args false) demo_world
              [text "src/a.cpp"; text "src/b.h"; text "src/c.cpp"]
              [text "src/logger_interface.h"] (text "src/locked.cpp")
              (text "[Errno 13] Permission denied: 'src/locked.cpp'"))
    as (_ & Hmain & Hin & Hcount & _); try (vm_compute; reflexivity).
  split; [exact Hin|]. split; [now rewrite Hmain|exact Hcount].
Defined.
